(** * Retrieval core of the Newtral simple RAG notebook

    A shallow embedding of [simple_rag.ipynb]: the vector index [IR] with its
    [search] method, the cached construction of the embedding store, the
    citation list built by [ChatQA.__call__], the ingestion loops, the
    generators and the demo page.

    Embedding components and scores are floats in the notebook; here they are
    rationals ([Q]) with exact arithmetic, and "equal score" is [Qeq].  The
    rounding of float32 products and sums is not described: what is proved
    of a score is proved of the exact dot product. *)

From Stdlib Require Import QArith Lqa ZArith Lia.
From stdpp Require Import base option list strings sorting pretty gmap.

Local Open Scope Z_scope.
Local Open Scope nat_scope.

(** ** Exceptions raised on the paths modelled here *)

Inductive exn : Type :=
  | ShapeMismatch      (* RuntimeError of torch.mm: inner dimensions differ *)
  | SliceOfScalar      (* IndexError: slice() applied to a 0-dim tensor *)
  | IndexOutOfRange.   (* IndexError: list index out of range *)

Inductive result (A : Type) : Type :=
  | Raise (e : exn)
  | Ok (a : A).
Arguments Raise {A} e.
Arguments Ok {A} a.

#[global] Instance result_bind : MBind result := λ A B f m,
  match m with
  | Raise e => Raise e
  | Ok a => f a
  end.

(** [[f(i) for i in l]] where [f] may raise: the first exception wins. *)
Fixpoint for_each {A B} (f : A → result B) (l : list A) : result (list B) :=
  match l with
  | [] => Ok []
  | a :: l' => b ← f a; bs ← for_each f l'; Ok (b :: bs)
  end.

Definition from_option {A} (e : exn) (o : option A) : result A :=
  match o with
  | Some a => Ok a
  | None => Raise e
  end.

(** ** The sort of the C++ library *)

(** [torch.argsort] on a CPU tensor, with [stable] left at its default,
    sorts the pairs of a value and its position with [std::sort], comparing
    the values.  This is that function as libstdc++ has it: an introsort
    that leaves ranges of at most 16 elements to a final insertion sort.
    The array is a list, the iterators are positions in it. *)
Module StdSort.

(** The comparison the kernel sorts with: the values only. *)
Definition comp (a b : nat * Q) : bool := negb (Qle_bool b.2 a.2).

(** [comp(first + i, first + j)] on the array [l]. *)
Definition comp_at (l : list (nat * Q)) (i j : nat) : bool :=
  match l !! i, l !! j with
  | Some a, Some b => comp a b
  | _, _ => false
  end.

(** [std::iter_swap] of two places of the array. *)
Definition iter_swap (l : list (nat * Q)) (i j : nat) : list (nat * Q) :=
  match l !! i, l !! j with
  | Some a, Some b => <[i := b]> (<[j := a]> l)
  | _, _ => l
  end.

(** [std::__move_median_to_first] *)
Definition move_median_to_first (l : list (nat * Q)) (result a b c : nat) :=
  if comp_at l a b then
    if comp_at l b c then iter_swap l result b
    else if comp_at l a c then iter_swap l result c
    else iter_swap l result a
  else if comp_at l a c then iter_swap l result a
  else if comp_at l b c then iter_swap l result c
  else iter_swap l result b.

(** [while (comp(first, pivot)) ++first;]  The loop has no bound of its
    own in the library, the pivot chosen as a median stops it; here it also
    stops at the end of the array. *)
Fixpoint scan_up (fuel : nat) (l : list (nat * Q)) (pivot first : nat) : nat :=
  match fuel with
  | 0 => first
  | S fuel' =>
      if comp_at l first pivot then scan_up fuel' l pivot (S first) else first
  end.

(** [while (comp(pivot, last)) --last;] *)
Fixpoint scan_down (fuel : nat) (l : list (nat * Q)) (pivot last : nat) : nat :=
  match fuel with
  | 0 => last
  | S fuel' =>
      if comp_at l pivot last then scan_down fuel' l pivot (last - 1) else last
  end.

(** [std::__unguarded_partition]; the pivot stays at its place. *)
Fixpoint unguarded_partition (fuel : nat) (l : list (nat * Q))
    (pivot first last : nat) : list (nat * Q) * nat :=
  match fuel with
  | 0 => (l, first)
  | S fuel' =>
      let first := scan_up (length l) l pivot first in
      let last := scan_down (length l) l pivot (last - 1) in
      if first <? last
      then unguarded_partition fuel' (iter_swap l first last) pivot (S first) last
      else (l, first)
  end.

(** [std::__unguarded_partition_pivot] *)
Definition unguarded_partition_pivot (l : list (nat * Q)) (first last : nat) :=
  let mid := first + (last - first) / 2 in
  let l := move_median_to_first l first (first + 1) mid (last - 1) in
  unguarded_partition (length l) l first (first + 1) last.

(** The first loop of [std::__adjust_heap]: the hole goes down to a leaf
    along the greater children.  The library keeps the value of the hole
    aside and moves the children up; here the value is kept in the hole and
    exchanged with the child, which leaves the same array. *)
Fixpoint sift_down (fuel : nat) (l : list (nat * Q)) (first len hole : nat) :=
  match fuel with
  | 0 => (l, hole)
  | S fuel' =>
      if hole <? (len - 1) / 2 then
        let child := 2 * (hole + 1) in
        let child :=
          if comp_at l (first + child) (first + (child - 1))
          then child - 1 else child in
        sift_down fuel' (iter_swap l (first + hole) (first + child)) first len child
      else (l, hole)
  end.

(** [std::__push_heap]: the value in the hole goes up while its parent is
    smaller. *)
Fixpoint push_heap (fuel : nat) (l : list (nat * Q)) (first hole top : nat) :=
  match fuel with
  | 0 => l
  | S fuel' =>
      let parent := (hole - 1) / 2 in
      if (top <? hole) && comp_at l (first + parent) (first + hole)
      then push_heap fuel' (iter_swap l (first + hole) (first + parent)) first parent top
      else l
  end.

(** [std::__adjust_heap] with the value in the hole. *)
Definition adjust_heap (l : list (nat * Q)) (first hole len : nat) :=
  let '(l, child) := sift_down len l first len hole in
  let '(l, child) :=
    if Nat.even len && (child =? (len - 2) / 2)
    then (iter_swap l (first + child) (first + (2 * (child + 1) - 1)),
          2 * (child + 1) - 1)
    else (l, child) in
  push_heap len l first child hole.

(** The loop of [std::__make_heap], from [parent] down to 0. *)
Fixpoint make_heap_from (parent : nat) (l : list (nat * Q)) (first len : nat) :=
  let l := adjust_heap l first parent len in
  match parent with
  | 0 => l
  | S parent' => make_heap_from parent' l first len
  end.

(** [std::__make_heap] *)
Definition make_heap (l : list (nat * Q)) (first last : nat) :=
  let len := last - first in
  if len <? 2 then l else make_heap_from ((len - 2) / 2) l first len.

(** [std::__sort_heap], each step a [std::__pop_heap]. *)
Fixpoint sort_heap (len : nat) (l : list (nat * Q)) (first : nat) :=
  match len with
  | 0 => l
  | S len' =>
      if 1 <? len then
        let l := iter_swap l first (first + len') in
        sort_heap len' (adjust_heap l first 0 len') first
      else l
  end.

(** [std::__partial_sort(first, last, last)]: heap sort of the range. *)
Definition partial_sort_all (l : list (nat * Q)) (first last : nat) :=
  sort_heap (last - first) (make_heap l first last) first.

(** [std::__introsort_loop]: ranges of at most 16 elements are left as
    they are; the loop of the library goes on with the left part, which is
    the second call here. *)
Fixpoint introsort_loop (depth_limit : nat) (l : list (nat * Q))
    (first last : nat) : list (nat * Q) :=
  if last - first <=? 16 then l else
  match depth_limit with
  | 0 => partial_sort_all l first last
  | S depth_limit' =>
      let '(l, cut) := unguarded_partition_pivot l first last in
      let l := introsort_loop depth_limit' l cut last in
      introsort_loop depth_limit' l first cut
  end.

(** [std::__unguarded_linear_insert] of [val] into the sorted elements
    before it, given last to first: [val] passes the elements that are
    greater. *)
Fixpoint linear_insert (val : nat * Q) (sorted_rev : list (nat * Q)) :=
  match sorted_rev with
  | [] => [val]
  | next :: rest =>
      if comp val next then next :: linear_insert val rest
      else val :: next :: rest
  end.

(** [std::__final_insertion_sort]: insertion sort of the whole array.  The
    library inserts without a guard where the partition makes one
    needless; the result is the same. *)
Definition final_insertion_sort (l : list (nat * Q)) : list (nat * Q) :=
  reverse (foldl (λ sorted_rev val, linear_insert val sorted_rev) [] l).

(** [std::sort] *)
Definition sort (l : list (nat * Q)) : list (nat * Q) :=
  match l with
  | [] => []
  | _ =>
      final_insertion_sort
        (introsort_loop (2 * Nat.log2 (length l)) l 0 (length l))
  end.

End StdSort.

(** ** Tensors *)

Module Tensor.

(** The result of [squeeze()] on a [1 x n] matrix: every axis of size one
    is dropped, so a single score becomes a 0-dim tensor. *)
Inductive t (A : Type) : Type :=
  | Scalar (x : A)
  | Vec (xs : list A).
Arguments Scalar {A} x.
Arguments Vec {A} xs.

(** A numpy array of floats with one axis, of shape [(len(xs),)], or with
    two, of shape [(len(rows), ncols)]; the second stands for an array when
    every row has [ncols] entries.  An array without rows still has its
    number of columns. *)
Inductive ndarray : Type :=
  | Array1 (xs : list Q)
  | Array2 (ncols : nat) (rows : list (list Q)).

(** The rows and the number of columns [dot_score] works with: an array
    with one axis is taken as a single row ([unsqueeze(0)]). *)
Definition rows (b : ndarray) : list (list Q) :=
  match b with
  | Array1 xs => [xs]
  | Array2 _ rows => rows
  end.

Definition ncols (b : ndarray) : nat :=
  match b with
  | Array1 xs => length xs
  | Array2 ncols _ => ncols
  end.

Definition dot (a b : list Q) : Q :=
  foldr Qplus 0%Q (zip_with Qmult a b).

(** [util.dot_score(a, b)] for a 1-D [a]:
    [torch.mm(a.unsqueeze(0), b.transpose(0, 1))], the single row of
    scores.  [torch.mm] raises when the number of columns of [b] is not the
    length of [a], also when [b] has no row. *)
Definition dot_score (a : list Q) (b : ndarray) : result (list Q) :=
  if (ncols b =? length a) && forallb (λ row, length row =? length a) (rows b)
  then Ok (dot a <$> rows b)
  else Raise ShapeMismatch.

Definition squeeze {A} (row : list A) : t A :=
  match row with
  | [x] => Scalar x
  | _ => Vec row
  end.

Definition neg (s : t Q) : t Q :=
  match s with
  | Scalar x => Scalar (- x)%Q
  | Vec xs => Vec (Qopp <$> xs)
  end.

Definition enumerate {A} (xs : list A) : list (nat * A) :=
  imap (λ i x, (i, x)) xs.

(** The positions of the values in the order [std::sort] leaves them. *)
Definition argsort_list (xs : list Q) : list nat :=
  (StdSort.sort (enumerate xs)).*1.

(** [s.argsort()] *)
Definition argsort (s : t Q) : t nat :=
  match s with
  | Scalar _ => Scalar 0
  | Vec xs => Vec (argsort_list xs)
  end.

(** Python's [l[:k]] on a sequence. *)
Definition slice_list {A} (l : list A) (k : Z) : list A :=
  if (0 <=? k)%Z then take (Z.to_nat k) l
  else take (Z.to_nat (Z.of_nat (length l) + k)) l.

(** [s[:k]]; a 0-dim tensor cannot be sliced. *)
Definition slice {A} (s : t A) (k : Z) : result (list A) :=
  match s with
  | Scalar _ => Raise SliceOfScalar
  | Vec xs => Ok (slice_list xs k)
  end.

(** [s[i].item()] for a 1-D [s] *)
Definition item {A} (s : t A) (i : nat) : result A :=
  match s with
  | Scalar _ => Raise IndexOutOfRange
  | Vec xs => from_option IndexOutOfRange (xs !! i)
  end.

End Tensor.

(** ** The index *)

Record metadata : Type := Metadata {
  claimReviewed : string;
  url : string
}.

(** An entry of [documents]: [{"text": chunk, "metadata": metadata}]. *)
Record document : Type := Document {
  text : string;
  doc_metadata : metadata
}.

(** An entry of the list [search] returns:
    [{**self.documents[i], "score": scores[i].item()}]. *)
Record search_result : Type := SearchResult {
  res_text : string;
  res_metadata : metadata;
  score : Q
}.

Definition with_score (d : document) (s : Q) : search_result :=
  {| res_text := text d; res_metadata := doc_metadata d; score := s |}.

(** The sentence encoder, a collaborator: [model.encode] on one string. *)
Definition encoder : Type := string → list Q.

Record IR : Type := MkIR {
  documents : list document;
  vectorstore : Tensor.ndarray;
  model : encoder
}.

(** The positions [search] selects: [(-scores).argsort()[:k]], with the
    squeezed scores they index. *)
Definition search_topk (self : IR) (query : string) (k : Z)
  : result (Tensor.t Q * list nat) :=
  let query_embedding := model self query in
  scores ← Tensor.dot_score query_embedding (vectorstore self) ;
  let scores := Tensor.squeeze scores in
  topk ← Tensor.slice (Tensor.argsort (Tensor.neg scores)) k ;
  Ok (scores, topk).

Definition search (self : IR) (query : string) (k : Z)
  : result (list search_result) :=
  '(scores, topk) ← search_topk self query k ;
  for_each (λ i,
    d ← from_option IndexOutOfRange (documents self !! i) ;
    s ← Tensor.item scores i ;
    Ok (with_score d s)) topk.

(** [k] defaults to 4. *)
Definition search_default (self : IR) (query : string)
  : result (list search_result) := search self query 4.

(** ** Building the index *)

(** [model.encode(texts)] on a list: the embeddings as one array, which has
    two axes when there is a text and is [np.asarray([])], of shape [(0,)],
    when there is none. *)
Definition encode_batch (model : encoder) (texts : list string)
  : Tensor.ndarray :=
  match texts with
  | [] => Tensor.Array1 []
  | text :: _ => Tensor.Array2 (length (model text)) (model <$> texts)
  end.

(** The cell that fills [vectorstore]: [cache] is the content of
    [data/vectorstore.npy] when that path exists.  An existing file is
    loaded as it is; otherwise every chunk text is encoded, in order, and
    the array is saved.  Returns the store and the file afterwards. *)
Definition build_vectorstore (cache : option Tensor.ndarray)
    (model : encoder) (documents : list document)
  : Tensor.ndarray * option Tensor.ndarray :=
  match cache with
  | Some stored => (stored, Some stored)
  | None =>
      let vectorstore := encode_batch model (text <$> documents) in
      (vectorstore, Some vectorstore)
  end.

(** [index = IR(documents, vectorstore, model)] *)
Definition build_index (cache : option Tensor.ndarray)
    (model : encoder) (documents : list document) : IR :=
  MkIR documents (build_vectorstore cache model documents).1 model.

(** ** Answering with citations *)

Definition nl : string := String (Ascii.ascii_of_nat 10) EmptyString.

(** [sep.join(parts)] *)
Definition join (sep : string) (parts : list string) : string :=
  String.concat sep parts.

Definition document_separator : string := nl +:+ nl.

(** [question_template.format(context=..., question=...)] *)
Definition question_template (context question : string) : string :=
  "Use the following pieces of context to answer the question at the end. If you don't know the answer, just say that you don't know."
  +:+ nl +:+ nl +:+ context +:+ nl +:+ nl
  +:+ "Question: " +:+ question +:+ nl +:+ "Helpful Answer:".

(** [history_template.format(chat_history=..., question=...)] *)
Definition history_template (chat_history question : string) : string :=
  "Given the following conversation and a follow up question, rephrase the follow up question to be a standalone question."
  +:+ nl +:+ nl +:+ "Chat History:" +:+ nl +:+ chat_history +:+ nl
  +:+ "Follow Up Input: " +:+ question +:+ nl +:+ "Standalone question:".

(** What [completion] is called with: a prompt, or a list of
    [{"role": ..., "content": ...}] messages. *)
Inductive llm_input : Type :=
  | Prompt (prompt : string)
  | Messages (messages : list (string * string)).

(** The generator, a collaborator: [llm.completion], for the calls in which
    it gives its text.  A call in which the generator itself raises (no
    connection, an unknown model) is not described here. *)
Definition LLM : Type := llm_input → string.

(** A Python [dict] as far as it is used here: keys in insertion order, each
    once; setting a key that is present keeps its place. *)
Fixpoint dict_set {V} (d : list (string * V)) (k : string) (v : V)
  : list (string * V) :=
  match d with
  | [] => [(k, v)]
  | (k', v') :: d' =>
      if decide (k = k') then (k', v) :: d' else (k', v') :: dict_set d' k v
  end.

(** [dict.fromkeys(keys)]: every key mapped to [None]. *)
Definition dict_fromkeys (keys : list string) : list (string * unit) :=
  foldl (λ d k, dict_set d k ()) [] keys.

(** [list(d)] *)
Definition dict_keys {V} (d : list (string * V)) : list string := d.*1.

(** [urls] of [__call__], after [list(dict.fromkeys(urls))]. *)
Definition cited_urls (documents : list search_result) : list string :=
  let urls := (λ document, url (res_metadata document)) <$> documents in
  dict_keys (dict_fromkeys urls).

(** [[f"{i+1}. {url}" for i, url in enumerate(urls)]] *)
Definition citation (documents : list search_result) : list string :=
  imap (λ i url, pretty (i + 1) +:+ ". " +:+ url) (cited_urls documents).

Record ChatQA : Type := MkChatQA {
  ir : IR;
  llm : LLM;
  history : list string
}.

Definition reset (self : ChatQA) : ChatQA :=
  {| ir := ir self; llm := llm self; history := [] |}.

Definition follow_up_query (self : ChatQA) (question : string) : string :=
  let prompt := history_template (join "/n" (history self)) question in
  llm self (Prompt prompt).

(** The query [__call__] searches with. *)
Definition call_query (self : ChatQA) (question : string) (use_history : bool)
  : string :=
  if use_history && negb (length (history self) =? 0)
  then follow_up_query self question
  else question.

(** [ChatQA.__call__]: the returned text (or the exception of [search])
    and the object afterwards. *)
Definition call (self : ChatQA) (question : string) (use_history : bool)
  : result string * ChatQA :=
  let query := call_query self question use_history in
  match search_default (ir self) query with
  | Raise e => (Raise e, self)
  | Ok documents =>
      let contexts := res_text <$> documents in
      let context := join document_separator contexts in
      let prompt := question_template context query in
      let messages := [("system", prompt)] in
      let answer := llm self (Messages messages) in
      let self' :=
        if use_history
        then {| ir := ir self; llm := llm self;
                history := history self ++ [join nl [prompt; answer]] |}
        else self in
      (Ok (join nl (answer :: citation documents)), self')
  end.

(** ** From the claims table to the chunk records *)

(** A row of [data/claims.csv], as far as the notebook reads it. *)
Record claim_row : Type := ClaimRow {
  row_article : string;
  row_claimReviewed : string;
  row_url : string
}.

(** The loop that fills [raw_documents]: one record per row, appended. *)
Definition raw_documents_of (claims : list claim_row) : list document :=
  foldl (λ raw_documents claim,
    let text := row_article claim in
    let metadata :=
      {| claimReviewed := row_claimReviewed claim; url := row_url claim |} in
    raw_documents ++ [ {| text := text; doc_metadata := metadata |} ])
    [] claims.

(** The loop that fills [documents].  [split] stands for
    [split_text(_, chunk_size, chunk_overlap, separators)], whose code is in
    [utils]. *)
Definition documents_of (split : string → list string)
    (raw_documents : list document) : list document :=
  foldl (λ documents document,
    let text := text document in
    let metadata := doc_metadata document in
    let splits := split text in
    foldl (λ documents chunk,
      let new_doc := {| text := chunk; doc_metadata := metadata |} in
      documents ++ [new_doc]) documents splits)
    [] raw_documents.

(** ** The generators *)

(** A chunk of the stream of the OpenAI client: for every choice, the
    [delta.content], which may be [None]. *)
Record chat_chunk : Type := ChatChunk {
  choices : list (option string)
}.

(** What a generator has done when it is exhausted by its consumer: the
    tokens it yielded, and the exception that ended it, if one did. *)
Definition generated : Type := list string * option exn.

(** The loop of [ChatGPT.completion_stream] over the stream the client
    returned: [chunk.choices[0].delta.content], with [None] read as the
    empty token. *)
Fixpoint chatgpt_tokens (stream : list chat_chunk) : generated :=
  match stream with
  | [] => ([], None)
  | chunk :: stream' =>
      match choices chunk !! 0 with
      | None => ([], Some IndexOutOfRange)
      | Some content =>
          let token := match content with Some c => c | None => "" end in
          let '(tokens, raised) := chatgpt_tokens stream' in
          (token :: tokens, raised)
      end
  end.

(** [LLM.completion]: ["".join(self.completion_stream(...))]. *)
Definition completion_of (g : generated) : result string :=
  match g.2 with
  | Some e => Raise e
  | None => Ok (join "" g.1)
  end.

(** The values kept in [ChatGPT.params]. *)
Inductive param : Type :=
  | PStr (s : string)
  | PFloat (x : Q)
  | PInt (n : Z)
  | PNone
  | PDict (d : gmap string Q).

Definition optional_int (o : option Z) : param :=
  match o with
  | Some n => PInt n
  | None => PNone
  end.

(** [self.params] after [ChatGPT.__init__]. *)
Definition chatgpt_params (model : string) (temperature : Q)
    (max_tokens : option Z) (top_p : Z)
    (frequency_penalty presence_penalty : Q) (n : Z)
    (logit_bias : option (gmap string Q)) (seed : option Z)
  : gmap string param :=
  let params : gmap string param :=
    <["model" := PStr model]> (
    <["temperature" := PFloat temperature]> (
    <["max_tokens" := optional_int max_tokens]> (
    <["top_p" := PInt top_p]> (
    <["frequency_penalty" := PFloat frequency_penalty]> (
    <["presence_penalty" := PFloat presence_penalty]> (
    <["n" := PInt n]> (
    <["logit_bias" :=
        PDict (match logit_bias with
               | Some d => if decide (d = ∅) then ∅ else d
               | None => ∅
               end)]> ∅))))))) in
  match seed with
  | Some s => if decide (s = 0%Z) then params else <["seed" := PInt s]> params
  | None => params
  end.

(** The same call with the defaults of the signature. *)
Definition chatgpt_default_params (model : string) : gmap string param :=
  chatgpt_params model 0 None 1 0 0 1 None None.

(** ** The demo *)

(** [respond(question, chat_history)]: the pair it returns (the new text
    of the box and the history, to which one turn was appended) or the
    exception of [chat(question)], and [chat] afterwards. *)
Definition respond (chat : ChatQA) (question : string)
    (chat_history : list (string * string))
  : result (string * list (string * string)) * ChatQA :=
  match call chat question false with
  | (Raise e, chat') => (Raise e, chat')
  | (Ok bot_message, chat') =>
      (Ok ("", chat_history ++ [(question, bot_message)]), chat')
  end.

(** [reset_chat()] *)
Definition reset_chat (chat : ChatQA) : string * ChatQA := ("", reset chat).

(** Questions submitted one after the other; a turn that raises leaves the
    history of the page as it was. *)
Fixpoint demo_session (chat : ChatQA) (chat_history : list (string * string))
    (questions : list string) : list (string * string) * ChatQA :=
  match questions with
  | [] => (chat_history, chat)
  | question :: questions' =>
      match respond chat question chat_history with
      | (Ok (_, chat_history'), chat') =>
          demo_session chat' chat_history' questions'
      | (Raise _, chat') => demo_session chat' chat_history questions'
      end
  end.

(** ** Vocabulary of the statements *)

(** [p] comes before [p']: smaller value, or equal value and smaller
    position. *)
Definition before (p p' : nat * Q) : Prop :=
  (p.2 < p'.2)%Q ∨ (p.2 == p'.2 ∧ p.1 < p'.1).

Definition by_position (p p' : nat * Q) : Prop := p.1 < p'.1.

Definition by_value (p p' : nat * Q) : Prop := (p.2 <= p'.2)%Q.

(** The rows of the store of an index. *)
Definition store_rows (self : IR) : list (list Q) :=
  Tensor.rows (vectorstore self).

(** Every row has as many entries as the array has columns. *)
Definition is_array (b : Tensor.ndarray) : Prop :=
  Forall (λ row, length row = Tensor.ncols b) (Tensor.rows b).

(** The score of every stored row against the query, in row order. *)
Definition scores_of (self : IR) (query : string) : list Q :=
  Tensor.dot (model self query) <$> store_rows self.

(** The store has the dimension of the query's embedding: its number of
    columns, and with it every row. *)
Definition well_shaped (self : IR) (query : string) : Prop :=
  Tensor.ncols (vectorstore self) = length (model self query)
  ∧ Forall (λ row, length row = length (model self query)) (store_rows self).

(** The whole ranking: the positions of all rows, best score first. *)
Definition ranking (self : IR) (query : string) : list nat :=
  Tensor.argsort_list (Qopp <$> scores_of self query).

(** Entry [i] of the index with its score, when both exist. *)
Definition entry (self : IR) (query : string) (i : nat)
  : option search_result :=
  d ← documents self !! i;
  s ← scores_of self query !! i;
  Some (with_score d s).

(** [u] is seen before [v] in [l]: [u] occurs, and before every
    occurrence of [v]. *)
Definition first_seen_before (l : list string) (u v : string) : Prop :=
  ∃ i, l !! i = Some u ∧ ∀ j, l !! j = Some v → i < j.

(** What holds of a dict's keys once the keys [seen] have been set. *)
Definition keys_invariant (keys seen : list string) : Prop :=
  NoDup keys
  ∧ (∀ u, u ∈ keys ↔ u ∈ seen)
  ∧ ∀ a b u v, a < b → keys !! a = Some u → keys !! b = Some v →
      first_seen_before seen u v.

(** The text a chunk of the stream contributes: the content of its first
    choice, when there is one and it is not [None]. *)
Definition first_content (chunk : chat_chunk) : option string :=
  match choices chunk !! 0 with
  | Some (Some c) => Some c
  | _ => None
  end.

(** What a turn of the demo adds to the history of the page. *)
Definition demo_turn (chat : ChatQA) (question : string)
  : option (string * string) :=
  match (call chat question false).1 with
  | Ok bot_message => Some (question, bot_message)
  | Raise _ => None
  end.

(** ** Sample inputs *)

Definition sample_doc (name : string) : document :=
  {| text := name;
     doc_metadata := {| claimReviewed := "claim"; url := "https://" +:+ name |} |}.

(** Every query is embedded as [[1, 1]]. *)
Definition ones : encoder := λ _, [1; 1]%Q.

(** Three chunks with embeddings [[1,0]], [[0,1]], [[0.5,0.5]]. *)
Definition tie_index : IR :=
  MkIR [sample_doc "a"; sample_doc "b"; sample_doc "c"]
       (Tensor.Array2 2 [[1; 0]; [0; 1]; [1 # 2; 1 # 2]]%Q) ones.

(** One chunk, with its one embedding. *)
Definition single_index : IR :=
  MkIR [sample_doc "a"] (Tensor.Array2 2 [[1; 0]%Q]) ones.

(** One chunk, and a cached store of two rows. *)
Definition stale_cache : Tensor.ndarray :=
  Tensor.Array2 2 [[1; 0]; [3; 1]]%Q.

(** Seventeen chunks, named by their position, with the same embedding
    [[1,0]]: every score is 1. *)
Definition seventeen_ties : IR :=
  MkIR ((λ i, sample_doc (pretty i)) <$> seq 0 17)
       (Tensor.Array2 2 (replicate 17 [1; 0]%Q)) ones.

(** Three chunks, the first two cut from one article. *)
Definition two_article_index : IR :=
  MkIR [ {| text := "first half";
            doc_metadata := {| claimReviewed := "claim 1"; url := "https://one" |} |};
         {| text := "second half";
            doc_metadata := {| claimReviewed := "claim 1"; url := "https://one" |} |};
         {| text := "other";
            doc_metadata := {| claimReviewed := "claim 2"; url := "https://two" |} |} ]
       (Tensor.Array2 2 [[1; 0]; [0; 1]; [1 # 2; 1 # 2]]%Q) ones.

Definition sample_chat : ChatQA :=
  {| ir := two_article_index; llm := λ _, "an answer"; history := [] |}.

(** * Properties *)

(** ** The sort behind [argsort] *)

Section sorting.

(** *** Every step is an exchange *)

Lemma iter_swap_perm l i j : StdSort.iter_swap l i j ≡ₚ l.
Proof.
  unfold StdSort.iter_swap.
  destruct (l !! i) as [a|] eqn:Ha; [|done].
  destruct (l !! j) as [b|] eqn:Hb; [|done].
  by apply Permutation_insert_swap.
Qed.

Lemma length_iter_swap l i j : length (StdSort.iter_swap l i j) = length l.
Proof. by rewrite iter_swap_perm. Qed.

Lemma move_median_to_first_perm l r a b c :
  StdSort.move_median_to_first l r a b c ≡ₚ l.
Proof.
  unfold StdSort.move_median_to_first.
  repeat case_match; apply iter_swap_perm.
Qed.

Lemma unguarded_partition_perm fuel l pivot first last :
  (StdSort.unguarded_partition fuel l pivot first last).1 ≡ₚ l.
Proof.
  revert l first last. induction fuel as [|fuel IH]; intros l first last.
  { done. }
  cbn [StdSort.unguarded_partition]. case_match; [|done].
  by rewrite IH, iter_swap_perm.
Qed.

Lemma unguarded_partition_pivot_perm l first last :
  (StdSort.unguarded_partition_pivot l first last).1 ≡ₚ l.
Proof.
  unfold StdSort.unguarded_partition_pivot.
  by rewrite unguarded_partition_perm, move_median_to_first_perm.
Qed.

Lemma sift_down_perm fuel l first len hole :
  (StdSort.sift_down fuel l first len hole).1 ≡ₚ l.
Proof.
  revert l hole. induction fuel as [|fuel IH]; intros l hole; [done|].
  cbn [StdSort.sift_down]. case_match; [|done].
  by rewrite IH, iter_swap_perm.
Qed.

Lemma push_heap_perm fuel l first hole top :
  StdSort.push_heap fuel l first hole top ≡ₚ l.
Proof.
  revert l hole. induction fuel as [|fuel IH]; intros l hole; [done|].
  cbn [StdSort.push_heap]. case_match; [|done].
  by rewrite IH, iter_swap_perm.
Qed.

Lemma adjust_heap_perm l first hole len :
  StdSort.adjust_heap l first hole len ≡ₚ l.
Proof.
  unfold StdSort.adjust_heap.
  pose proof (sift_down_perm len l first len hole) as Hdown.
  destruct (StdSort.sift_down len l first len hole) as [l1 child].
  simpl in Hdown.
  destruct (Nat.even len && (child =? (len - 2) / 2)).
  - by rewrite push_heap_perm, iter_swap_perm.
  - by rewrite push_heap_perm.
Qed.

Lemma make_heap_from_perm parent l first len :
  StdSort.make_heap_from parent l first len ≡ₚ l.
Proof.
  revert l. induction parent as [|parent IH]; intros l;
    cbn [StdSort.make_heap_from].
  - apply adjust_heap_perm.
  - by rewrite IH, adjust_heap_perm.
Qed.

Lemma make_heap_perm l first last : StdSort.make_heap l first last ≡ₚ l.
Proof.
  unfold StdSort.make_heap. case_match; [done|apply make_heap_from_perm].
Qed.

Lemma sort_heap_perm len l first : StdSort.sort_heap len l first ≡ₚ l.
Proof.
  revert l. induction len as [|len IH]; intros l; [done|].
  cbn [StdSort.sort_heap]. case_match; [|done].
  by rewrite IH, adjust_heap_perm, iter_swap_perm.
Qed.

Lemma partial_sort_all_perm l first last :
  StdSort.partial_sort_all l first last ≡ₚ l.
Proof.
  unfold StdSort.partial_sort_all. by rewrite sort_heap_perm, make_heap_perm.
Qed.

Lemma introsort_loop_perm depth l first last :
  StdSort.introsort_loop depth l first last ≡ₚ l.
Proof.
  revert l first last. induction depth as [|depth IH]; intros l first last;
    cbn [StdSort.introsort_loop]; (case_match; [done|]).
  - apply partial_sort_all_perm.
  - pose proof (unguarded_partition_pivot_perm l first last) as Hcut.
    destruct (StdSort.unguarded_partition_pivot l first last) as [l1 cut].
    simpl in Hcut. by rewrite !IH.
Qed.

Lemma introsort_loop_small depth l first last :
  last - first ≤ 16 → StdSort.introsort_loop depth l first last = l.
Proof.
  intros Hsmall. apply Nat.leb_le in Hsmall.
  destruct depth; cbn [StdSort.introsort_loop]; by rewrite Hsmall.
Qed.

Lemma linear_insert_perm val l : StdSort.linear_insert val l ≡ₚ val :: l.
Proof.
  induction l as [|next l IH]; simpl; [done|].
  case_match; [|done]. by rewrite IH, Permutation_swap.
Qed.

Lemma insertion_fold_perm l acc :
  foldl (λ sorted_rev val, StdSort.linear_insert val sorted_rev) acc l
  ≡ₚ acc ++ l.
Proof.
  revert acc. induction l as [|val l IH]; intros acc; simpl.
  - by rewrite app_nil_r.
  - rewrite IH, linear_insert_perm. simpl. apply Permutation_middle.
Qed.

Lemma final_insertion_sort_perm l : StdSort.final_insertion_sort l ≡ₚ l.
Proof.
  unfold StdSort.final_insertion_sort.
  by rewrite reverse_Permutation, insertion_fold_perm.
Qed.

Lemma sort_perm l : StdSort.sort l ≡ₚ l.
Proof.
  unfold StdSort.sort. destruct l as [|p l]; [done|].
  by rewrite final_insertion_sort_perm, introsort_loop_perm.
Qed.

Lemma sort_small l :
  length l ≤ 16 → StdSort.sort l = StdSort.final_insertion_sort l.
Proof.
  intros Hsmall. unfold StdSort.sort. destruct l as [|p l]; [done|].
  rewrite introsort_loop_small; [done|lia].
Qed.

(** *** The final insertion sort puts the values in order *)

Lemma comp_lt (a b : nat * Q) : StdSort.comp a b = true ↔ (a.2 < b.2)%Q.
Proof.
  unfold StdSort.comp. rewrite negb_true_iff. split.
  - intros Hle. apply Qnot_le_lt. intros H%Qle_bool_iff. congruence.
  - intros Hlt. destruct (Qle_bool b.2 a.2) eqn:Hle; [|done].
    apply Qle_bool_iff in Hle. lra.
Qed.

Lemma comp_ge (a b : nat * Q) : StdSort.comp a b = false ↔ (b.2 <= a.2)%Q.
Proof.
  unfold StdSort.comp. rewrite negb_false_iff. apply Qle_bool_iff.
Qed.

Lemma StronglySorted_reverse_flip {A} (R : relation A) l :
  StronglySorted (flip R) l → StronglySorted R (reverse l).
Proof.
  induction 1 as [|x l _ IH Hall]; [constructor|].
  rewrite reverse_cons. apply StronglySorted_app. split_and!.
  - intros y z Hy Hz%list_elem_of_singleton. subst z.
    rewrite elem_of_reverse in Hy.
    rewrite Forall_forall in Hall. exact (Hall y Hy).
  - done.
  - repeat constructor.
Qed.

(** The elements given last to first, [val] to be put in.  [R] is the
    order to establish. *)
Lemma linear_insert_sorted (R : relation (nat * Q)) val l :
  (∀ x y, R x y → (x.2 <= y.2)%Q) →
  (∀ y, y ∈ l → (val.2 < y.2)%Q → R val y) →
  (∀ y, y ∈ l → (y.2 <= val.2)%Q → R y val) →
  StronglySorted (flip R) l →
  StronglySorted (flip R) (StdSort.linear_insert val l).
Proof.
  intros Hvalue. induction l as [|next l IH]; intros Hlt Hge Hsorted; simpl.
  { repeat constructor. }
  apply StronglySorted_cons in Hsorted as [Hall Hsorted].
  destruct (StdSort.comp val next) eqn:Hcomp.
  - apply comp_lt in Hcomp. apply StronglySorted_cons. split.
    + rewrite linear_insert_perm. constructor; [|done].
      apply Hlt; [left|done].
    + apply IH; [|by auto using list_elem_of_further..|done].
      intros y Hy. apply Hlt. by right.
  - apply comp_ge in Hcomp. apply StronglySorted_cons. split.
    + constructor; [apply Hge; [left|done]|].
      rewrite Forall_forall in Hall |- *. intros y Hy.
      apply Hge; [by right|].
      specialize (Hall y Hy). apply Hvalue in Hall. lra.
    + by apply StronglySorted_cons.
Qed.

Lemma insertion_fold_by_value l acc :
  StronglySorted (flip by_value) acc →
  StronglySorted (flip by_value)
    (foldl (λ sorted_rev val, StdSort.linear_insert val sorted_rev) acc l).
Proof.
  revert acc. induction l as [|val l IH]; intros acc Hacc; simpl; [done|].
  apply IH, linear_insert_sorted; [done| | |done].
  - intros y _ Hlt. unfold by_value. lra.
  - by intros y _ Hge.
Qed.

Lemma final_insertion_sort_sorted l :
  StronglySorted by_value (StdSort.final_insertion_sort l).
Proof.
  apply StronglySorted_reverse_flip, insertion_fold_by_value. constructor.
Qed.

Lemma sort_sorted l : StronglySorted by_value (StdSort.sort l).
Proof.
  unfold StdSort.sort. destruct l as [|p l]; [constructor|].
  apply final_insertion_sort_sorted.
Qed.

(** *** On its own the insertion sort keeps equal values in order *)

Lemma before_by_value p p' : before p p' → (p.2 <= p'.2)%Q.
Proof. intros [?|[? _]]; lra. Qed.

Lemma insertion_fold_before l acc :
  StronglySorted by_position l →
  Forall (λ y, Forall (by_position y) l) acc →
  StronglySorted (flip before) acc →
  StronglySorted (flip before)
    (foldl (λ sorted_rev val, StdSort.linear_insert val sorted_rev) acc l).
Proof.
  revert acc. induction l as [|val l IH]; intros acc Hl Hpos Hacc; simpl.
  { done. }
  apply StronglySorted_cons in Hl as [Hval Hl].
  apply IH; [done| |].
  - rewrite linear_insert_perm. constructor; [done|].
    eapply Forall_impl; [exact Hpos|]. intros y Hy. simpl in Hy.
    by apply Forall_cons in Hy as [_ ?].
  - apply linear_insert_sorted; [apply before_by_value| | |done].
    + intros y _ Hlt. by left.
    + intros y Hy Hge. rewrite Forall_forall in Hpos.
      specialize (Hpos y Hy). apply Forall_cons in Hpos as [Hy_val _].
      unfold before, by_position in *.
      destruct (Qlt_le_dec y.2 val.2) as [?|?]; [by left|right].
      split; [by apply Qle_antisym|done].
Qed.

Lemma final_insertion_sort_stable l :
  StronglySorted by_position l →
  StronglySorted before (StdSort.final_insertion_sort l).
Proof.
  intros Hl. apply StronglySorted_reverse_flip, insertion_fold_before;
    [done|constructor..].
Qed.

(** *** The pairs that are sorted *)

Lemma enumerate_from_sorted (xs : list Q) k :
  StronglySorted by_position (imap (λ i x, (k + i, x)) xs)
  ∧ Forall (λ p : nat * Q, k ≤ p.1) (imap (λ i x, (k + i, x)) xs).
Proof.
  revert k. induction xs as [|x xs IH]; intros k.
  { split; constructor. }
  rewrite imap_cons.
  rewrite (imap_ext _ (λ i x, (S k + i, x))) by (intros; simpl; f_equal; lia).
  destruct (IH (S k)) as [Hs Hf]. split.
  - apply StronglySorted_cons. split; [|done].
    eapply Forall_impl; [exact Hf|]. unfold by_position. simpl. lia.
  - constructor; [simpl; lia|].
    eapply Forall_impl; [exact Hf|]. simpl. lia.
Qed.

Lemma enumerate_sorted (xs : list Q) :
  StronglySorted by_position (Tensor.enumerate xs).
Proof. apply (enumerate_from_sorted xs 0). Qed.

Lemma elem_of_enumerate (xs : list Q) i x :
  (i, x) ∈ Tensor.enumerate xs ↔ xs !! i = Some x.
Proof.
  unfold Tensor.enumerate. rewrite elem_of_lookup_imap. split.
  - intros (j & y & [= -> ->] & ?). done.
  - intros ?. by exists i, x.
Qed.

Lemma enumerate_fst (xs : list Q) :
  (Tensor.enumerate xs).*1 = seq 0 (length xs).
Proof.
  unfold Tensor.enumerate. rewrite fmap_imap.
  rewrite (imap_ext _ (λ i _, id i)) by done.
  by rewrite (imap_seq_0 xs id), list_fmap_id.
Qed.

Lemma length_enumerate (xs : list Q) :
  length (Tensor.enumerate xs) = length xs.
Proof. unfold Tensor.enumerate. apply length_imap. Qed.

Lemma StronglySorted_lookup {A} (R : relation A) l a b x y :
  StronglySorted R l → a < b → l !! a = Some x → l !! b = Some y → R x y.
Proof.
  intros Hs. revert a b. induction Hs as [|z l Hs IH Hall]; intros a b Hab Ha Hb.
  { done. }
  destruct b as [|b]; [lia|]. destruct a as [|a]; simpl in *.
  - injection Ha as ->. rewrite Forall_forall in Hall.
    apply Hall. by eapply list_elem_of_lookup_2.
  - eapply IH; [|done..]. lia.
Qed.

Lemma argsort_list_perm xs :
  Tensor.argsort_list xs ≡ₚ seq 0 (length xs).
Proof.
  unfold Tensor.argsort_list.
  by rewrite sort_perm, enumerate_fst.
Qed.

Lemma length_argsort_list xs :
  length (Tensor.argsort_list xs) = length xs.
Proof. by rewrite argsort_list_perm, length_seq. Qed.

Lemma argsort_list_lt xs i :
  i ∈ Tensor.argsort_list xs ↔ i < length xs.
Proof. rewrite argsort_list_perm, elem_of_seq. lia. Qed.

Lemma NoDup_argsort_list xs : NoDup (Tensor.argsort_list xs).
Proof. rewrite argsort_list_perm. apply NoDup_seq. Qed.

(** Two positions of the sorted pairs, in the order they are listed, are
    related by [R] when the sorted pairs are. *)
Lemma argsort_list_related (R : relation (nat * Q)) xs a b i j :
  StronglySorted R (StdSort.sort (Tensor.enumerate xs)) →
  a < b →
  Tensor.argsort_list xs !! a = Some i →
  Tensor.argsort_list xs !! b = Some j →
  ∃ x y, xs !! i = Some x ∧ xs !! j = Some y ∧ R (i, x) (j, y).
Proof.
  unfold Tensor.argsort_list. intros Hsorted Hab Ha Hb.
  rewrite list_lookup_fmap in Ha, Hb.
  destruct (StdSort.sort (Tensor.enumerate xs) !! a)
    as [[i' x]|] eqn:Hpa; simplify_eq/=.
  destruct (StdSort.sort (Tensor.enumerate xs) !! b)
    as [[j' y]|] eqn:Hpb; simplify_eq/=.
  exists x, y. split_and!.
  - apply elem_of_enumerate. rewrite <- sort_perm.
    by eapply list_elem_of_lookup_2.
  - apply elem_of_enumerate. rewrite <- sort_perm.
    by eapply list_elem_of_lookup_2.
  - by eapply StronglySorted_lookup.
Qed.

(** Along the ranking the values ascend. *)
Lemma argsort_list_order xs a b i j :
  a < b →
  Tensor.argsort_list xs !! a = Some i →
  Tensor.argsort_list xs !! b = Some j →
  ∃ x y, xs !! i = Some x ∧ xs !! j = Some y ∧ (x <= y)%Q.
Proof.
  intros Hab Ha Hb.
  destruct (argsort_list_related by_value xs a b i j) as (x & y & ? & ? & ?);
    [apply sort_sorted|done..|].
  by exists x, y.
Qed.

(** Up to 16 values, equal values also keep their original order. *)
Lemma argsort_list_order_small xs a b i j :
  length xs ≤ 16 →
  a < b →
  Tensor.argsort_list xs !! a = Some i →
  Tensor.argsort_list xs !! b = Some j →
  ∃ x y, xs !! i = Some x ∧ xs !! j = Some y ∧ before (i, x) (j, y).
Proof.
  intros Hsmall. apply argsort_list_related.
  rewrite sort_small by by rewrite length_enumerate.
  apply final_insertion_sort_stable, enumerate_sorted.
Qed.

End sorting.

(** ** What [search] computes *)

Section search_facts.

Implicit Types (self : IR) (q : string) (k : Z).

Lemma for_each_Ok {A B} (f : A → result B) l rs :
  for_each f l = Ok rs ↔ Forall2 (λ a r, f a = Ok r) l rs.
Proof.
  revert rs. induction l as [|a l IH]; intros rs; simpl.
  - split; [intros [= <-]; constructor|by intros ->%Forall2_nil_inv_l].
  - split.
    + destruct (f a) as [e|b] eqn:Hb; simpl; [done|].
      destruct (for_each f l) as [e|bs] eqn:Hbs; simpl; [done|].
      intros [= <-]. constructor; [done|]. by apply IH.
    + intros (b & bs & Hb & Hbs & ->)%Forall2_cons_inv_l.
      apply IH in Hbs. by rewrite Hb, Hbs.
Qed.

Lemma same_length_forallb (a : list Q) (b : list (list Q)) :
  forallb (λ row, length row =? length a) b = true ↔
  Forall (λ r, length r = length a) b.
Proof.
  induction b as [|r b IH]; simpl.
  - split; [constructor|done].
  - rewrite andb_true_iff, Nat.eqb_eq, IH, Forall_cons. done.
Qed.

Lemma dot_score_Ok a b row :
  Tensor.dot_score a b = Ok row ↔
  (Tensor.ncols b = length a
   ∧ Forall (λ r, length r = length a) (Tensor.rows b))
  ∧ row = Tensor.dot a <$> Tensor.rows b.
Proof.
  unfold Tensor.dot_score.
  destruct (_ && _) eqn:Hall.
  - apply andb_true_iff in Hall as [Hc%Nat.eqb_eq Hr%same_length_forallb].
    split.
    + by intros [= <-].
    + by intros [_ ->].
  - split; [done|]. intros [[Hc%Nat.eqb_eq Hr%same_length_forallb] _].
    by rewrite Hc, Hr in Hall.
Qed.

Lemma squeeze_Vec {A} (row : list A) :
  length row ≠ 1 → Tensor.squeeze row = Tensor.Vec row.
Proof. by destruct row as [|? [|]]. Qed.

Lemma squeeze_Scalar {A} (row : list A) :
  length row = 1 → ∃ x, Tensor.squeeze row = Tensor.Scalar x.
Proof. destruct row as [|x [|]]; [done| |done]. by exists x. Qed.

Lemma length_scores_of self q :
  length (scores_of self q) = length (store_rows self).
Proof. unfold scores_of. by rewrite length_fmap. Qed.

Lemma search_topk_Ok self q k scores topk :
  search_topk self q k = Ok (scores, topk) ↔
  well_shaped self q ∧ length (store_rows self) ≠ 1
  ∧ scores = Tensor.Vec (scores_of self q)
  ∧ topk = Tensor.slice_list (ranking self q) k.
Proof.
  unfold search_topk, well_shaped, ranking, store_rows.
  destruct (Tensor.dot_score _ _) as [e|row] eqn:Hrow; simpl.
  - split; [done|]. intros (Hs & _).
    assert (Tensor.dot_score (model self q) (vectorstore self)
            = Ok (scores_of self q)) by by apply dot_score_Ok.
    congruence.
  - apply dot_score_Ok in Hrow as [Hs ->].
    fold (store_rows self). fold (scores_of self q).
    destruct (decide (length (store_rows self) = 1)) as [H1|H1].
    + destruct (squeeze_Scalar (scores_of self q)) as [x ->].
      { by rewrite length_scores_of. }
      simpl. split; [done|]. by intros (_ & ? & _).
    + rewrite squeeze_Vec by by rewrite length_scores_of.
      simpl. split.
      * intros [= <- <-]. done.
      * by intros (_ & _ & -> & ->).
Qed.

(** The result list is the list of selected positions, each replaced by
    its entry. *)
Lemma search_Ok self q k rs :
  search self q k = Ok rs ↔
  well_shaped self q ∧ length (store_rows self) ≠ 1
  ∧ Forall2 (λ i r, entry self q i = Some r)
      (Tensor.slice_list (ranking self q) k) rs.
Proof.
  unfold search.
  destruct (search_topk self q k) as [e|[scores topk]] eqn:Htopk; simpl.
  - split; [done|]. intros (Hs & H1 & _).
    assert (search_topk self q k
      = Ok (Tensor.Vec (scores_of self q),
            Tensor.slice_list (ranking self q) k)) by by apply search_topk_Ok.
    congruence.
  - apply search_topk_Ok in Htopk as (Hs & H1 & -> & ->).
    rewrite for_each_Ok. split.
    + intros HF. split_and!; [done..|].
      eapply Forall2_impl; [exact HF|]. intros i r. simpl. unfold entry.
      destruct (documents self !! i); simpl; [|done].
      destruct (scores_of self q !! i); simpl; [|done]. by intros [= <-].
    + intros (_ & _ & HF).
      eapply Forall2_impl; [exact HF|]. intros i r. simpl. unfold entry.
      destruct (documents self !! i); simpl; [|done].
      destruct (scores_of self q !! i); simpl; [|done]. by intros [= <-].
Qed.

Lemma slice_list_take {A} (l : list A) k :
  Tensor.slice_list l k
  = take (Z.to_nat (if (0 <=? k)%Z then k else Z.of_nat (length l) + k)%Z) l.
Proof. unfold Tensor.slice_list. by destruct (0 <=? k)%Z. Qed.

Lemma lookup_slice_list {A} (l : list A) k a x :
  Tensor.slice_list l k !! a = Some x → l !! a = Some x.
Proof. rewrite slice_list_take. by intros [? _]%lookup_take_Some. Qed.

Lemma elem_of_slice_list {A} (l : list A) k x :
  x ∈ Tensor.slice_list l k → x ∈ l.
Proof.
  intros [a Ha]%list_elem_of_lookup_1.
  eapply list_elem_of_lookup_2, lookup_slice_list, Ha.
Qed.

Lemma slice_list_all {A} (l : list A) k :
  (Z.of_nat (length l) ≤ k)%Z → Tensor.slice_list l k = l.
Proof.
  intros Hk. rewrite slice_list_take.
  destruct (0 <=? k)%Z eqn:H0; [|lia]. apply take_ge. lia.
Qed.

Lemma length_slice_list_pos {A} (l : list A) k :
  (0 ≤ k)%Z → length (Tensor.slice_list l k) = Z.to_nat k `min` length l.
Proof.
  intros Hk. rewrite slice_list_take, length_take.
  destruct (0 <=? k)%Z eqn:H0; [done|lia].
Qed.

Lemma slice_list_0 {A} (l : list A) : Tensor.slice_list l 0 = [].
Proof. done. Qed.

Lemma slice_list_neg {A} (l : list A) k :
  (k < 0)%Z →
  Tensor.slice_list l k = take (length l - Z.to_nat (- k)) l.
Proof.
  intros Hk. rewrite slice_list_take.
  destruct (0 <=? k)%Z eqn:H0; [lia|]. f_equal. lia.
Qed.

Lemma length_ranking self q :
  length (ranking self q) = length (store_rows self).
Proof.
  unfold ranking.
  by rewrite length_argsort_list, length_fmap, length_scores_of.
Qed.

Lemma ranking_perm self q :
  ranking self q ≡ₚ seq 0 (length (store_rows self)).
Proof.
  unfold ranking.
  by rewrite argsort_list_perm, length_fmap, length_scores_of.
Qed.

Lemma elem_of_ranking self q i :
  i ∈ ranking self q ↔ i < length (store_rows self).
Proof. rewrite ranking_perm, elem_of_seq. lia. Qed.

Lemma NoDup_ranking self q : NoDup (ranking self q).
Proof. rewrite ranking_perm. apply NoDup_seq. Qed.

(** Along the ranking the scores descend. *)
Lemma ranking_order self q a b i j :
  a < b →
  ranking self q !! a = Some i →
  ranking self q !! b = Some j →
  ∃ si sj, scores_of self q !! i = Some si ∧ scores_of self q !! j = Some sj
    ∧ (sj <= si)%Q.
Proof.
  intros Hab Ha Hb. unfold ranking in *.
  destruct (argsort_list_order _ a b i j Hab Ha Hb)
    as (x & y & Hx & Hy & Hle).
  rewrite list_lookup_fmap in Hx, Hy.
  destruct (scores_of self q !! i) as [si|]; [|done].
  destruct (scores_of self q !! j) as [sj|]; [|done].
  simplify_eq/=. exists si, sj. split_and!; [done..|]. lra.
Qed.

(** With at most 16 rows, equal scores also keep the order of the rows. *)
Lemma ranking_order_small self q a b i j :
  length (store_rows self) ≤ 16 →
  a < b →
  ranking self q !! a = Some i →
  ranking self q !! b = Some j →
  ∃ si sj, scores_of self q !! i = Some si ∧ scores_of self q !! j = Some sj
    ∧ ((sj < si)%Q ∨ (si == sj ∧ i < j)).
Proof.
  intros Hsmall Hab Ha Hb. unfold ranking in *.
  destruct (argsort_list_order_small (Qopp <$> scores_of self q) a b i j)
    as (x & y & Hx & Hy & Hbefore);
    [by rewrite length_fmap, length_scores_of|done..|].
  rewrite list_lookup_fmap in Hx, Hy.
  destruct (scores_of self q !! i) as [si|]; [|done].
  destruct (scores_of self q !! j) as [sj|]; [|done].
  simplify_eq/=. exists si, sj. split_and!; [done..|].
  destruct Hbefore as [Hlt|[Heq Hij]]; simpl in *.
  - left. lra.
  - right. split; [lra|done].
Qed.

Lemma entry_Some self q i r :
  entry self q i = Some r ↔
  ∃ d v, documents self !! i = Some d ∧ store_rows self !! i = Some v
    ∧ r = with_score d (Tensor.dot (model self q) v).
Proof.
  unfold entry, scores_of. rewrite list_lookup_fmap.
  destruct (documents self !! i) as [d|]; simpl.
  - destruct (store_rows self !! i) as [v|]; simpl.
    + split; [intros [= <-]; eauto|]. by intros (? & ? & [= <-] & [= <-] & ->).
    + split; [done|]. by intros (? & ? & _ & ? & _).
  - split; [done|]. by intros (? & ? & ? & _).
Qed.

Lemma entry_is_Some self q i :
  i < length (store_rows self) → i < length (documents self) →
  is_Some (entry self q i).
Proof.
  intros [v Hv]%lookup_lt_is_Some_2 [d Hd]%lookup_lt_is_Some_2.
  exists (with_score d (Tensor.dot (model self q) v)).
  apply entry_Some. eauto.
Qed.

(** On a store that is well shaped, has not exactly one row and has no
    more rows than there are documents, [search] returns. *)
Lemma search_returns self q k :
  well_shaped self q →
  length (store_rows self) ≠ 1 →
  length (store_rows self) ≤ length (documents self) →
  ∃ rs, search self q k = Ok rs
    ∧ mapM (entry self q) (Tensor.slice_list (ranking self q) k) = Some rs.
Proof.
  intros Hs H1 Hle.
  destruct (mapM (entry self q) (Tensor.slice_list (ranking self q) k))
    as [rs|] eqn:Hrs.
  - exists rs. split; [|done]. apply search_Ok. split_and!; [done..|].
    by apply mapM_Some.
  - exfalso. apply eq_None_not_Some in Hrs. apply Hrs, mapM_is_Some.
    apply Forall_forall. intros i Hi%elem_of_slice_list%elem_of_ranking.
    apply entry_is_Some; lia.
Qed.

Lemma search_length self q k rs :
  search self q k = Ok rs →
  length rs = length (Tensor.slice_list (ranking self q) k).
Proof. intros (_ & _ & HF)%search_Ok. symmetry. by eapply Forall2_length. Qed.

End search_facts.

(** ** The claims on [search] *)

(** C1, as stated, fails: [argsort] is called with [stable] at its default.
    Of seventeen chunks with the same score, the first four results are the
    chunks 8, 16, 15 and 14. *)
Lemma search_ties_not_in_insertion_order :
  search_topk seventeen_ties "q" 4
  = Ok (Tensor.Vec (replicate 17 1%Q), [8; 16; 15; 14])
  ∧ search seventeen_ties "q" 4
    = Ok [with_score (sample_doc "8") 1; with_score (sample_doc "16") 1;
          with_score (sample_doc "15") 1; with_score (sample_doc "14") 1].
Proof. split; vm_compute; reflexivity. Qed.

(** C1, amended. On an index of at most 16 chunks, chunks of equal score
    come back in insertion order: of two returned positions with equal
    scores the lower one is listed first, and a position is never returned
    without the lower positions that tie with it; on the three-chunk corpus
    with embeddings [1,0], [0,1], [0.5,0.5], query embedding [1,1] and
    k = 2, the result is the first two chunks. *)
Theorem search_ties_keep_insertion_order_up_to_16 :
  (∀ self q k rs,
     length (store_rows self) ≤ 16 →
     search self q k = Ok rs →
     ∃ topk,
       Forall2 (λ i r, entry self q i = Some r) topk rs
       ∧ (∀ a b i j si sj,
            topk !! a = Some i → topk !! b = Some j →
            scores_of self q !! i = Some si →
            scores_of self q !! j = Some sj →
            si == sj → i < j → a < b)
       ∧ (∀ b i j si sj,
            topk !! b = Some j →
            scores_of self q !! i = Some si →
            scores_of self q !! j = Some sj →
            si == sj → i < j → ∃ a, a < b ∧ topk !! a = Some i))
  ∧ (∀ d0 d1 d2 (m : encoder) q, m q = [1; 1]%Q →
       search (MkIR [d0; d1; d2]
                 (Tensor.Array2 2 [[1; 0]; [0; 1]; [1 # 2; 1 # 2]]%Q) m) q 2
       = Ok [with_score d0 1; with_score d1 1]).
Proof.
  split.
  - intros self q k rs Hsmall (_ & _ & HF)%search_Ok.
    exists (Tensor.slice_list (ranking self q) k). split_and!; [done| |].
    + intros a b i j si sj Ha%lookup_slice_list Hb%lookup_slice_list
        Hsi Hsj Heq Hij.
      destruct (Nat.lt_trichotomy a b) as [?|[->|Hba]]; [done|simplify_eq; lia|].
      exfalso.
      destruct (ranking_order_small self q b a j i Hsmall Hba Hb Ha)
        as (sj' & si' & Hsj' & Hsi' & Hord).
      simplify_eq. destruct Hord as [?|[_ ?]]; [lra|lia].
    + intros b i j si sj Hb Hsi Hsj Heq Hij.
      rewrite slice_list_take in Hb |- *.
      apply lookup_take_Some in Hb as [Hb Hbound].
      assert (i ∈ ranking self q) as [a Ha]%list_elem_of_lookup_1.
      { apply elem_of_ranking. apply lookup_lt_Some in Hsi.
        by rewrite length_scores_of in Hsi. }
      assert (a < b) as Hab.
      { destruct (Nat.lt_trichotomy a b) as [?|[->|Hba]];
          [done|simplify_eq; lia|].
        exfalso.
        destruct (ranking_order_small self q b a j i Hsmall Hba Hb Ha)
          as (sj' & si' & Hsj' & Hsi' & Hord).
        simplify_eq. destruct Hord as [?|[_ ?]]; [lra|lia]. }
      exists a. split; [done|]. apply lookup_take_Some. split; [done|lia].
  - intros d0 d1 d2 m q Hm. unfold search, search_topk, Tensor.dot_score.
    simpl. rewrite Hm. reflexivity.
Qed.

Lemma search_ties_keep_insertion_order_up_to_16_witness :
  search tie_index "q" 2
  = Ok [with_score (sample_doc "a") 1; with_score (sample_doc "b") 1]
  ∧ ∃ topk,
      Forall2 (λ i r, entry tie_index "q" i = Some r) topk
        [with_score (sample_doc "a") 1; with_score (sample_doc "b") 1].
Proof.
  split.
  - apply (proj2 search_ties_keep_insertion_order_up_to_16). reflexivity.
  - destruct (proj1 search_ties_keep_insertion_order_up_to_16 tie_index "q" 2%Z
      [with_score (sample_doc "a") 1; with_score (sample_doc "b") 1])
      as (topk & HF & _ & _); [simpl; lia|reflexivity|].
    by exists topk.
Defined.

(** C2. The results are sorted by non-increasing score: of two adjacent
    results the earlier has a score at least that of the later.  (And
    [search] does return on a well-shaped store that has not exactly one row
    and no more rows than documents.) *)
Theorem search_sorted_by_score self q k :
  (∀ rs a r1 r2,
     search self q k = Ok rs →
     rs !! a = Some r1 → rs !! S a = Some r2 →
     (score r2 <= score r1)%Q)
  ∧ (well_shaped self q →
     length (store_rows self) ≠ 1 →
     length (store_rows self) ≤ length (documents self) →
     ∃ rs, search self q k = Ok rs).
Proof.
  split.
  - intros rs a r1 r2 (_ & _ & HF)%search_Ok H1 H2.
    destruct (Forall2_lookup_r _ _ _ _ _ HF H1) as (i & Hi & Hei).
    destruct (Forall2_lookup_r _ _ _ _ _ HF H2) as (j & Hj & Hej).
    apply lookup_slice_list in Hi, Hj.
    destruct (ranking_order self q a (S a) i j) as (si & sj & Hsi & Hsj & Hord);
      [lia|done..|].
    unfold entry in Hei, Hej. rewrite Hsi in Hei. rewrite Hsj in Hej.
    destruct (documents self !! i); [|done].
    destruct (documents self !! j); [|done].
    simplify_eq/=. lra.
  - intros Hs H1 Hle.
    destruct (search_returns self q k Hs H1 Hle) as (rs & ? & _). eauto.
Qed.

Lemma search_sorted_by_score_witness :
  (score (with_score (sample_doc "b") 1)
   <= score (with_score (sample_doc "a") 1))%Q
  ∧ ∃ rs, search tie_index "q" 2 = Ok rs.
Proof.
  split.
  - apply (proj1 (search_sorted_by_score tie_index "q" 2)
      [with_score (sample_doc "a") 1; with_score (sample_doc "b") 1] 0);
      reflexivity.
  - apply (proj2 (search_sorted_by_score tie_index "q" 2)).
    + repeat constructor.
    + simpl. lia.
    + simpl. lia.
Defined.

(** For a store of [n ≠ 1] rows the count is [min(k, n)], and with [k ≥ n]
    the result lists every position once, in ranked order. *)
Lemma search_count_unless_single_row self q k :
  well_shaped self q →
  length (store_rows self) ≠ 1 →
  length (store_rows self) ≤ length (documents self) →
  (0 ≤ k)%Z →
  ∃ rs, search self q k = Ok rs
    ∧ length rs = Z.to_nat k `min` length (store_rows self)
    ∧ ((Z.of_nat (length (store_rows self)) ≤ k)%Z →
       Forall2 (λ i r, entry self q i = Some r) (ranking self q) rs
       ∧ ranking self q ≡ₚ seq 0 (length (store_rows self))).
Proof.
  intros Hs H1 Hle Hk.
  destruct (search_returns self q k Hs H1 Hle) as (rs & Hrs & HmapM).
  exists rs. split_and!; [done| |].
  - by rewrite (search_length _ _ _ _ Hrs), length_slice_list_pos, length_ranking.
  - intros Hall. split; [|apply ranking_perm].
    apply mapM_Some in HmapM.
    rewrite slice_list_all in HmapM; [done|]. by rewrite length_ranking.
Qed.

(** C3. With exactly one stored chunk the score matrix is [1 x 1]:
    [squeeze()] turns it into a 0-dim tensor and slicing it with [[:k]]
    raises, whatever [k] is, where [min(k, 1)] results were due. *)
Theorem search_single_chunk_raises d row (m : encoder) q k :
  length row = length (m q) →
  search (MkIR [d] (Tensor.Array2 (length row) [row]) m) q k
  = Raise SliceOfScalar.
Proof.
  intros Hlen. unfold search, search_topk, Tensor.dot_score. simpl.
  by rewrite Hlen, Nat.eqb_refl.
Qed.

Lemma search_single_chunk_raises_witness :
  search single_index "q" 1 = Raise SliceOfScalar.
Proof. apply (search_single_chunk_raises _ [1; 0]%Q). reflexivity. Defined.

(** A store of no rows that has the columns of the query embedding, an
    array of shape [(0, D)], is answered with the empty list. *)
Lemma search_store_without_rows docs (m : encoder) q k :
  search (MkIR docs (Tensor.Array2 (length (m q)) []) m) q k = Ok [].
Proof.
  unfold search, search_topk, Tensor.dot_score. simpl.
  rewrite Nat.eqb_refl. simpl.
  unfold Tensor.slice_list, Tensor.argsort_list. simpl.
  by destruct (0 <=? k)%Z; rewrite take_nil.
Qed.

(** C4. The index that is built from no document is not answered with the
    empty list: its store is [model.encode([])], an array of shape [(0,)],
    and [search] raises on it for every query and every [k], in
    [torch.mm] when the query embedding has an entry, and at the slice
    when it has none. *)
Theorem search_built_empty_index_raises (m : encoder) q k :
  build_index None m [] = MkIR [] (Tensor.Array1 []) m
  ∧ search (build_index None m []) q k
    = Raise (if length (m q) =? 0 then SliceOfScalar else ShapeMismatch).
Proof.
  split; [done|].
  unfold build_index, search, search_topk, Tensor.dot_score. simpl.
  destruct (m q) as [|x a]; simpl; done.
Qed.

(** C5, as stated, fails: [k = 0] and [k = -1] are answered with a list. *)
Lemma search_nonpositive_k_not_rejected :
  search tie_index "q" 0 = Ok []
  ∧ search tie_index "q" (-1)
    = Ok [with_score (sample_doc "a") 1; with_score (sample_doc "b") 1].
Proof. split; reflexivity. Qed.

(** C5, amended. [search] does not inspect [k]: with [k ≤ 0], on a
    well-shaped store that has not exactly one row and no more rows than
    documents, it returns the empty list for [k = 0] and the ranking without
    its last [-k] entries for [k < 0]. *)
Theorem search_nonpositive_k self q k :
  (k ≤ 0)%Z →
  well_shaped self q →
  length (store_rows self) ≠ 1 →
  length (store_rows self) ≤ length (documents self) →
  ∃ rs, search self q k = Ok rs
    ∧ (k = 0%Z → rs = [])
    ∧ ((k < 0)%Z →
       mapM (entry self q)
         (take (length (store_rows self) - Z.to_nat (- k)) (ranking self q))
       = Some rs).
Proof.
  intros Hk Hs H1 Hle.
  destruct (search_returns self q k Hs H1 Hle) as (rs & Hrs & HmapM).
  exists rs. split_and!; [done| |].
  - intros ->. rewrite slice_list_0 in HmapM.
    apply mapM_Some in HmapM. by apply Forall2_nil_inv_l in HmapM.
  - intros Hneg. by rewrite slice_list_neg, length_ranking in HmapM.
Qed.

Lemma search_nonpositive_k_witness :
  ∃ rs, search tie_index "q" (-1) = Ok rs
    ∧ (-1 = 0 → rs = [])%Z
    ∧ ((-1 < 0)%Z →
       mapM (entry tie_index "q")
         (take (length (store_rows tie_index) - Z.to_nat (- -1))
            (ranking tie_index "q"))
       = Some rs).
Proof.
  apply (search_nonpositive_k tie_index "q" (-1)).
  - lia.
  - repeat constructor.
  - simpl. lia.
  - simpl. lia.
Defined.

(** C6. Every result is a stored chunk, with its text and its metadata, and
    a score that is the dot product of the query embedding with the row
    stored for that chunk.  (And [search] does return on a well-shaped store
    that has not exactly one row and no more rows than documents.) *)
Theorem search_results_carry_chunk_and_score self q k :
  (∀ rs r, search self q k = Ok rs → r ∈ rs →
     ∃ i d v,
       documents self !! i = Some d ∧ store_rows self !! i = Some v
       ∧ res_text r = text d ∧ res_metadata r = doc_metadata d
       ∧ score r = Tensor.dot (model self q) v)
  ∧ (well_shaped self q →
     length (store_rows self) ≠ 1 →
     length (store_rows self) ≤ length (documents self) →
     ∃ rs, search self q k = Ok rs).
Proof.
  split.
  - intros rs r (_ & _ & HF)%search_Ok [a Ha]%list_elem_of_lookup_1.
    destruct (Forall2_lookup_r _ _ _ _ _ HF Ha) as (i & _ & Hentry).
    apply entry_Some in Hentry as (d & v & Hd & Hv & ->).
    by exists i, d, v.
  - intros Hs H1 Hle.
    destruct (search_returns self q k Hs H1 Hle) as (rs & ? & _). eauto.
Qed.

Lemma search_results_carry_chunk_and_score_witness :
  (∃ i d v,
     documents tie_index !! i = Some d ∧ store_rows tie_index !! i = Some v
     ∧ res_text (with_score (sample_doc "b") 1) = text d
     ∧ res_metadata (with_score (sample_doc "b") 1) = doc_metadata d
     ∧ score (with_score (sample_doc "b") 1) = Tensor.dot (model tie_index "q") v)
  ∧ ∃ rs, search tie_index "q" 2 = Ok rs.
Proof.
  split.
  - apply (proj1 (search_results_carry_chunk_and_score tie_index "q" 2)
      [with_score (sample_doc "a") 1; with_score (sample_doc "b") 1]).
    + reflexivity.
    + right. left.
  - apply (proj2 (search_results_carry_chunk_and_score tie_index "q" 2)).
    + repeat constructor.
    + simpl. lia.
    + simpl. lia.
Defined.

(** ** Rows and documents *)

Lemma for_each_Raise {A B} (f : A → result B) l e :
  for_each f l = Raise e → ∃ a, a ∈ l ∧ f a = Raise e.
Proof.
  induction l as [|a l IH]; simpl; [done|].
  destruct (f a) as [e'|b] eqn:Hb; simpl.
  - intros [= ->]. exists a. split; [left|done].
  - destruct (for_each f l) as [e'|bs]; simpl; [|done].
    intros [= ->]. destruct IH as (a' & ? & ?); [done|].
    exists a'. split; [by right|done].
Qed.

Lemma search_topk_Raise self q k e :
  search_topk self q k = Raise e → e ≠ IndexOutOfRange.
Proof.
  unfold search_topk, Tensor.dot_score.
  destruct (_ && _); simpl; [|by intros [= <-]].
  destruct (Tensor.squeeze _); simpl; [by intros [= <-]|done].
Qed.

(** C10. [search] indexes [documents] with positions of rows of the store.
    It can return for every query and every [k] only if the store has no
    more rows than there are documents; with that many rows no lookup is out
    of range.  The build path does not establish it: a cached store is taken
    as it is, whatever the documents are, and a cached store of two rows
    with one document makes [search] raise. *)
Theorem search_total_only_if_rows_fit :
  (∀ self, (∀ q k, ∃ rs, search self q k = Ok rs) →
     length (store_rows self) ≤ length (documents self))
  ∧ (∀ self q k, length (store_rows self) ≤ length (documents self) →
       search self q k ≠ Raise IndexOutOfRange)
  ∧ (∀ stored (m : encoder) docs,
       build_index (Some stored) m docs = MkIR docs stored m)
  ∧ search (build_index (Some stale_cache) ones [sample_doc "a"]) "q" 1
    = Raise IndexOutOfRange.
Proof.
  split_and!.
  - intros self Htotal.
    destruct (Htotal "" (Z.of_nat (length (store_rows self)))) as [rs Hrs].
    apply search_Ok in Hrs as (_ & _ & HF).
    rewrite slice_list_all in HF by (rewrite length_ranking; lia).
    destruct (length (store_rows self)) as [|n] eqn:Hn; [lia|].
    assert (n ∈ ranking self "") as [a Ha]%list_elem_of_lookup_1.
    { apply elem_of_ranking. lia. }
    destruct (Forall2_lookup_l _ _ _ _ _ HF Ha) as (r & _ & Hr).
    apply entry_Some in Hr as (d & _ & Hd%lookup_lt_Some & _). lia.
  - intros self q k Hle. unfold search.
    destruct (search_topk self q k) as [e|[scores topk]] eqn:Htopk; simpl.
    { intros [= ->]. by eapply search_topk_Raise. }
    apply search_topk_Ok in Htopk as (_ & _ & -> & ->).
    intros (i & Hi%elem_of_slice_list%elem_of_ranking & Hraise)%for_each_Raise.
    destruct (lookup_lt_is_Some_2 (documents self) i) as [d Hd]; [lia|].
    destruct (lookup_lt_is_Some_2 (scores_of self q) i) as [s Hs].
    { rewrite length_scores_of. lia. }
    simpl in Hraise. by rewrite Hd, Hs in Hraise.
  - done.
  - reflexivity.
Qed.

Lemma search_total_only_if_rows_fit_witness :
  length (store_rows tie_index) ≤ length (documents tie_index)
  ∧ search tie_index "q" 2 ≠ Raise IndexOutOfRange.
Proof.
  split.
  - apply (proj1 search_total_only_if_rows_fit tie_index). intros q k.
    destruct (search_returns tie_index q k) as (rs & Hrs & _).
    + repeat constructor.
    + simpl. lia.
    + simpl. lia.
    + by exists rs.
  - apply (proj1 (proj2 search_total_only_if_rows_fit) tie_index "q" 2%Z).
    simpl. lia.
Defined.

(** ** The citation list *)

Section citations.

Lemma dict_keys_set {V} (d : list (string * V)) k v :
  dict_keys (dict_set d k v)
  = if decide (k ∈ dict_keys d) then dict_keys d else dict_keys d ++ [k].
Proof.
  unfold dict_keys. induction d as [|[k' v'] d IH]; [done|].
  simpl dict_set. destruct (decide (k = k')) as [->|Hne]; rewrite !fmap_cons; simpl.
  - rewrite decide_True by left. done.
  - rewrite IH. destruct (decide (k ∈ d.*1)) as [Hin|Hnin].
    + rewrite decide_True by by right. done.
    + rewrite decide_False; [done|].
      by intros [?|?]%elem_of_cons.
Qed.

Lemma keys_invariant_step keys seen x :
  keys_invariant keys seen →
  keys_invariant (if decide (x ∈ keys) then keys else keys ++ [x])
                 (seen ++ [x]).
Proof.
  intros (Hnd & Hmem & Hord).
  destruct (decide (x ∈ keys)) as [Hx|Hx].
  - split_and!; [done| |].
    + intros u. rewrite elem_of_app, list_elem_of_singleton, Hmem.
      split; [by left|]. intros [?| ->]; [done|]. by apply Hmem.
    + intros a b u v Hab Ha Hb.
      destruct (Hord a b u v Hab Ha Hb) as (i & Hi & Hfirst).
      exists i. split; [by apply lookup_app_l_Some|].
      intros j Hj. apply lookup_app_Some in Hj as [Hj|[Hlen _]].
      * by apply Hfirst.
      * apply lookup_lt_Some in Hi. lia.
  - split_and!.
    + apply NoDup_app. split_and!; [done| |apply NoDup_singleton].
      intros u Hu ->%list_elem_of_singleton. done.
    + intros u. rewrite !elem_of_app, Hmem. done.
    + intros a b u v Hab Ha Hb.
      apply lookup_app_Some in Hb as [Hb|[Hlen Hb]].
      * assert (keys !! a = Some u) as Ha'.
        { apply lookup_lt_Some in Hb.
          rewrite lookup_app_l in Ha by lia. done. }
        destruct (Hord a b u v Hab Ha' Hb) as (i & Hi & Hfirst).
        exists i. split; [by apply lookup_app_l_Some|].
        intros j Hj. apply lookup_app_Some in Hj as [Hj|[Hlen Hj]].
        -- by apply Hfirst.
        -- apply lookup_lt_Some in Hi. lia.
      * apply list_lookup_singleton_Some in Hb as [Hb ->].
        rewrite lookup_app_l in Ha by lia.
        assert (u ∈ seen) as [i Hi]%list_elem_of_lookup_1.
        { apply Hmem. by eapply list_elem_of_lookup_2. }
        exists i. split; [by apply lookup_app_l_Some|].
        intros j Hj. apply lookup_app_Some in Hj as [Hj|[Hlen' Hj]].
        -- exfalso. apply Hx, Hmem. by eapply list_elem_of_lookup_2.
        -- apply lookup_lt_Some in Hi. lia.
Qed.

Lemma dict_fromkeys_invariant keys :
  keys_invariant (dict_keys (dict_fromkeys keys)) keys.
Proof.
  unfold dict_fromkeys.
  induction keys as [|x keys IH] using rev_ind.
  - split_and!; [constructor|done|]. by intros [|?] ?.
  - rewrite foldl_snoc, dict_keys_set. by apply keys_invariant_step.
Qed.

End citations.

Example citation_two_articles :
  (call sample_chat "q" false).1
  = Ok (join nl ["an answer"; "1. https://one"; "2. https://two"]).
Proof. reflexivity. Qed.

(** C9. The citation list numbers the URLs of the retrieved chunks: each
    URL once, in the order in which the URLs are first met in the ranked
    results; [__call__] returns the answer followed by these lines. *)
Theorem citation_urls_once_in_first_seen_order :
  (∀ documents,
     let urls := (λ document, url (res_metadata document)) <$> documents in
     NoDup (cited_urls documents)
     ∧ (∀ u, u ∈ cited_urls documents ↔ u ∈ urls)
     ∧ (∀ a b u v, a < b →
          cited_urls documents !! a = Some u →
          cited_urls documents !! b = Some v →
          first_seen_before urls u v)
     ∧ citation documents
       = imap (λ i u, pretty (i + 1) +:+ ". " +:+ u) (cited_urls documents))
  ∧ (∀ self question use_history documents,
       search_default (ir self) (call_query self question use_history)
       = Ok documents →
       ∃ answer,
         (call self question use_history).1
         = Ok (join nl (answer :: citation documents))).
Proof.
  split.
  - intros documents urls.
    destruct (dict_fromkeys_invariant urls) as (Hnd & Hmem & Hord).
    by split_and!.
  - intros self question use_history documents Hsearch.
    unfold call. rewrite Hsearch. simpl. eauto.
Qed.

Lemma citation_urls_once_in_first_seen_order_witness :
  ∃ answer,
    (call sample_chat "q" false).1
    = Ok (join nl (answer ::
        citation [with_score (Document "first half" (Metadata "claim 1" "https://one")) 1;
                  with_score (Document "second half" (Metadata "claim 1" "https://one")) 1;
                  with_score (Document "other" (Metadata "claim 2" "https://two")) (4 # 4)])).
Proof.
  apply (proj2 citation_urls_once_in_first_seen_order sample_chat "q" false).
  reflexivity.
Defined.

(** * Further properties of the notebook's code *)

(** ** More on [search] *)

Lemma for_each_ext {A B} (f g : A → result B) l :
  (∀ a, a ∈ l → f a = g a) → for_each f l = for_each g l.
Proof.
  induction l as [|a l IH]; intros Hfg; simpl; [done|].
  rewrite (Hfg a) by left. destruct (g a); simpl; [done|].
  rewrite IH; [done|]. intros a' Ha'. apply Hfg. by right.
Qed.

Lemma search_not_well_shaped self q k :
  ¬ well_shaped self q → search self q k = Raise ShapeMismatch.
Proof.
  intros Hs. unfold search, search_topk, Tensor.dot_score.
  destruct (_ && _) eqn:Hall; [|done].
  apply andb_true_iff in Hall as [Hc%Nat.eqb_eq Hr%same_length_forallb].
  by destruct Hs.
Qed.

Lemma search_one_row self q k :
  well_shaped self q → length (store_rows self) = 1 →
  search self q k = Raise SliceOfScalar.
Proof.
  intros Hs H1. destruct (search self q k) as [e|rs] eqn:Hsearch.
  - unfold search in Hsearch.
    destruct (search_topk self q k) as [e'|[scores topk]] eqn:Htopk.
    + simpl in Hsearch. injection Hsearch as <-.
      unfold search_topk in Htopk.
      assert (Tensor.dot_score (model self q) (vectorstore self)
              = Ok (scores_of self q)) as Hdot by by apply dot_score_Ok.
      rewrite Hdot in Htopk. simpl in Htopk.
      destruct (squeeze_Scalar (scores_of self q)) as [x Hx].
      { by rewrite length_scores_of. }
      rewrite Hx in Htopk. simpl in Htopk. congruence.
    + apply search_topk_Ok in Htopk as (_ & ? & _). done.
  - apply search_Ok in Hsearch as (_ & ? & _). done.
Qed.

Lemma search_lookups self q k :
  well_shaped self q → length (store_rows self) ≠ 1 →
  search self q k
  = for_each (λ i,
      d ← from_option IndexOutOfRange (documents self !! i);
      s ← Tensor.item (Tensor.Vec (scores_of self q)) i;
      Ok (with_score d s)) (Tensor.slice_list (ranking self q) k).
Proof.
  intros Hs H1. unfold search.
  assert (search_topk self q k
          = Ok (Tensor.Vec (scores_of self q),
                Tensor.slice_list (ranking self q) k)) as ->
    by by apply search_topk_Ok.
  done.
Qed.

Lemma search_out_of_range self q k :
  well_shaped self q → length (store_rows self) ≠ 1 →
  (search self q k = Raise IndexOutOfRange ↔
   ∃ i, i ∈ Tensor.slice_list (ranking self q) k ∧ length (documents self) ≤ i).
Proof.
  intros Hs H1. split.
  - rewrite search_lookups by done.
    intros (i & Hi & Hraise)%for_each_Raise. exists i. split; [done|].
    apply elem_of_slice_list, elem_of_ranking in Hi.
    destruct (documents self !! i) as [d|] eqn:Hd.
    + exfalso. simpl in Hraise.
      destruct (lookup_lt_is_Some_2 (scores_of self q) i) as [s Hsc].
      { rewrite length_scores_of. lia. }
      by rewrite Hsc in Hraise.
    + by apply lookup_ge_None in Hd.
  - intros (i & Hi & Hge).
    destruct (search self q k) as [e|rs] eqn:Hsearch.
    + rewrite search_lookups in Hsearch by done.
      apply for_each_Raise in Hsearch as (j & _ & Hraise).
      destruct (documents self !! j); simpl in Hraise; [|congruence].
      destruct (scores_of self q !! j); simpl in Hraise; congruence.
    + exfalso. apply search_Ok in Hsearch as (_ & _ & HF).
      apply list_elem_of_lookup_1 in Hi as [a Ha].
      destruct (Forall2_lookup_l _ _ _ _ _ HF Ha) as (r & _ & Hr).
      apply entry_Some in Hr as (d & _ & Hd%lookup_lt_Some & _). lia.
Qed.

Lemma search_raises_only_index_error self q k e :
  well_shaped self q → length (store_rows self) ≠ 1 →
  search self q k = Raise e → e = IndexOutOfRange.
Proof.
  intros Hs H1. rewrite search_lookups by done.
  intros (j & _ & Hraise)%for_each_Raise.
  destruct (documents self !! j); simpl in Hraise; [|congruence].
  destruct (scores_of self q !! j); simpl in Hraise; congruence.
Qed.

Lemma well_shaped_array self q :
  is_array (vectorstore self) →
  well_shaped self q ↔ Tensor.ncols (vectorstore self) = length (model self q).
Proof.
  intros Harray. unfold well_shaped, store_rows. split; [by intros [? _]|].
  intros Hc. split; [done|]. by rewrite <- Hc.
Qed.

(** X1. What [search] raises on a store that is an array, and when: the
    shape error when the number of columns of the store is not the
    dimension of the query embedding, whether or not it has rows; otherwise
    the slice error when the store has exactly one row; otherwise the index
    error when a selected position has no document; otherwise it
    returns. *)
Theorem search_exceptions self q k :
  is_array (vectorstore self) →
  (search self q k = Raise ShapeMismatch ↔
   Tensor.ncols (vectorstore self) ≠ length (model self q))
  ∧ (search self q k = Raise SliceOfScalar ↔
     Tensor.ncols (vectorstore self) = length (model self q)
     ∧ length (store_rows self) = 1)
  ∧ (search self q k = Raise IndexOutOfRange ↔
     Tensor.ncols (vectorstore self) = length (model self q)
     ∧ length (store_rows self) ≠ 1
     ∧ ∃ i, i ∈ Tensor.slice_list (ranking self q) k
            ∧ length (documents self) ≤ i)
  ∧ ((∃ rs, search self q k = Ok rs) ↔
     Tensor.ncols (vectorstore self) = length (model self q)
     ∧ length (store_rows self) ≠ 1
     ∧ ∀ i, i ∈ Tensor.slice_list (ranking self q) k →
            i < length (documents self)).
Proof.
  intros Harray. rewrite <- !(well_shaped_array self q Harray).
  assert (Decision (well_shaped self q)) as [Hs|Hs]
    by (unfold well_shaped; apply _).
  - destruct (decide (length (store_rows self) = 1)) as [H1|H1].
    + rewrite (search_one_row self q k Hs H1). split_and!.
      * done.
      * done.
      * split; [done|]. by intros (_ & ? & _).
      * split; [by intros [? ?]|]. by intros (_ & ? & _).
    + pose proof (search_out_of_range self q k Hs H1) as Hout.
      pose proof (search_raises_only_index_error self q k) as Honly.
      split_and!.
      * split; [intros ?%Honly|]; done.
      * split; [intros ?%Honly|intros [_ ?]]; done.
      * rewrite Hout. split; [by intros ?|by intros (_ & _ & ?)].
      * split.
        -- intros [rs (_ & _ & HF)%search_Ok]. split_and!; [done..|].
           intros i [a Ha]%list_elem_of_lookup_1.
           destruct (Forall2_lookup_l _ _ _ _ _ HF Ha) as (r & _ & Hr).
           by apply entry_Some in Hr as (d & _ & Hd%lookup_lt_Some & _).
        -- intros (_ & _ & Hall).
           destruct (search self q k) as [e|rs] eqn:Hsearch; [|by eauto].
           exfalso. pose proof (Honly e Hs H1 eq_refl) as ->.
           destruct (proj1 Hout eq_refl) as (i & Hi & Hge).
           specialize (Hall i Hi). lia.
  - rewrite (search_not_well_shaped self q k Hs). split_and!.
    + done.
    + split; [done|]. by intros [? _].
    + split; [done|]. by intros [? _].
    + split; [by intros [? ?]|]. by intros [? _].
Qed.

Lemma search_exceptions_witness :
  search (MkIR [] (Tensor.Array2 3 []) ones) "q" 1 = Raise ShapeMismatch.
Proof.
  apply (search_exceptions (MkIR [] (Tensor.Array2 3 []) ones) "q" 1).
  - constructor.
  - simpl. lia.
Defined.

(** X2. Asking for fewer results gives a prefix: when [search] returns
    with [k'], it returns with every [0 ≤ k ≤ k'], and gives the first [k]
    of those results. *)
Theorem search_smaller_k_is_prefix self q k k' rs' :
  (0 ≤ k ≤ k')%Z →
  search self q k' = Ok rs' →
  search self q k = Ok (take (Z.to_nat k) rs').
Proof.
  intros [Hk Hkk'] (Hs & H1 & HF)%search_Ok.
  apply search_Ok. split_and!; [done..|].
  rewrite slice_list_take in HF |- *.
  destruct (0 <=? k)%Z eqn:?; [|lia]. destruct (0 <=? k')%Z eqn:?; [|lia].
  replace (take (Z.to_nat k) (ranking self q))
    with (take (Z.to_nat k) (take (Z.to_nat k') (ranking self q))).
  - by apply Forall2_take.
  - rewrite take_take. f_equal. lia.
Qed.

Lemma search_smaller_k_is_prefix_witness :
  search tie_index "q" 1
  = Ok (take (Z.to_nat 1)
          [with_score (sample_doc "a") 1; with_score (sample_doc "b") 1]).
Proof.
  apply (search_smaller_k_is_prefix tie_index "q" 1 2); [lia|reflexivity].
Defined.

(** X3. The best come first and nothing better is left out: the first
    result carries the highest score of the store, and every result scores
    at least as high as every row whose position was not selected. *)
Theorem search_returns_the_best self q k rs :
  search self q k = Ok rs →
  (∀ r s, rs !! 0 = Some r → s ∈ scores_of self q → (s <= score r)%Q)
  ∧ (∀ r j s, r ∈ rs →
       scores_of self q !! j = Some s →
       j ∉ Tensor.slice_list (ranking self q) k →
       (s <= score r)%Q).
Proof.
  intros (_ & _ & HF)%search_Ok.
  assert (∀ a i r, Tensor.slice_list (ranking self q) k !! a = Some i →
            entry self q i = Some r →
            scores_of self q !! i = Some (score r)) as Hscore.
  { intros a i r _ Hr. unfold entry in Hr.
    destruct (documents self !! i); simpl in Hr; [|done].
    destruct (scores_of self q !! i); simpl in Hr; [|done].
    by injection Hr as <-. }
  split.
  - intros r s Hr [j Hj]%list_elem_of_lookup_1.
    destruct (Forall2_lookup_r _ _ _ _ _ HF Hr) as (i & Hi & Hei).
    pose proof (Hscore _ _ _ Hi Hei) as Hsi.
    apply lookup_slice_list in Hi.
    assert (j ∈ ranking self q) as [b Hb]%list_elem_of_lookup_1.
    { apply elem_of_ranking. apply lookup_lt_Some in Hj.
      by rewrite length_scores_of in Hj. }
    destruct b as [|b].
    + simplify_eq. apply Qle_refl.
    + destruct (ranking_order self q 0 (S b) i j) as (si & sj & ? & ? & Hord);
        [lia|done..|].
      simplify_eq. lra.
  - intros r j s [a Ha]%list_elem_of_lookup_1 Hj Hout.
    destruct (Forall2_lookup_r _ _ _ _ _ HF Ha) as (i & Hi & Hei).
    pose proof (Hscore _ _ _ Hi Hei) as Hsi.
    assert (j ∈ ranking self q) as [b Hb]%list_elem_of_lookup_1.
    { apply elem_of_ranking. apply lookup_lt_Some in Hj.
      by rewrite length_scores_of in Hj. }
    rewrite slice_list_take in Hi, Hout.
    apply lookup_take_Some in Hi as [Hi Ha_lt].
    assert (a < b) as Hab.
    { destruct (decide (a < b)) as [|Hge]; [done|]. exfalso. apply Hout.
      eapply list_elem_of_lookup_2, lookup_take_Some. split; [done|lia]. }
    destruct (ranking_order self q a b i j Hab Hi Hb)
      as (si & sj & ? & ? & Hord).
    simplify_eq. lra.
Qed.

Lemma search_returns_the_best_witness :
  (4 # 4 <= score (with_score (sample_doc "a") 1))%Q.
Proof.
  apply (proj1 (search_returns_the_best tie_index "q" 2
    [with_score (sample_doc "a") 1; with_score (sample_doc "b") 1]
    eq_refl)).
  - reflexivity.
  - apply (list_elem_of_lookup_2 _ 2). reflexivity.
Defined.

Lemma search_documents_take docs store (m : encoder) q k :
  search (MkIR docs store m) q k
  = search (MkIR (take (length (Tensor.rows store)) docs) store m) q k.
Proof.
  unfold search.
  change (search_topk (MkIR (take (length (Tensor.rows store)) docs) store m)
            q k)
    with (search_topk (MkIR docs store m) q k).
  destruct (search_topk (MkIR docs store m) q k)
    as [e|[scores topk]] eqn:Htopk; simpl; [done|].
  apply search_topk_Ok in Htopk as (_ & _ & _ & ->).
  apply for_each_ext. intros i Hi%elem_of_slice_list%elem_of_ranking.
  simpl in Hi. by rewrite lookup_take_lt.
Qed.

(** X4. Documents past the last row of the store play no part: [search]
    gives the same outcome when the document list is cut to the number of
    rows. *)
Theorem search_ignores_surplus_documents docs store (m : encoder) q k :
  search (MkIR docs store m) q k
  = search (MkIR (take (length (Tensor.rows store)) docs) store m) q k.
Proof. apply search_documents_take. Qed.

(** X5. With [k] at least the number of rows, on a store with as many rows
    as documents, [search] returns every entry of the index once: the
    result is a rearrangement of the documents with their scores. *)
Theorem search_large_k_returns_every_entry self q k :
  well_shaped self q →
  length (store_rows self) ≠ 1 →
  length (store_rows self) = length (documents self) →
  (Z.of_nat (length (store_rows self)) ≤ k)%Z →
  ∃ rs, search self q k = Ok rs
    ∧ rs ≡ₚ zip_with with_score (documents self) (scores_of self q).
Proof.
  intros Hs H1 Hlen Hk.
  destruct (search_returns self q k Hs H1) as (rs & Hrs & HmapM); [lia|].
  exists rs. split; [done|].
  apply mapM_Some in HmapM.
  rewrite slice_list_all in HmapM by by rewrite length_ranking.
  set (f i := default (with_score (Document "" (Metadata "" "")) 0)
                (entry self q i)).
  assert (rs = f <$> ranking self q) as ->.
  { apply list_eq. intros a. rewrite list_lookup_fmap.
    destruct (ranking self q !! a) as [i|] eqn:Hi; simpl.
    - destruct (Forall2_lookup_l _ _ _ _ _ HmapM Hi) as (r & -> & Hr).
      unfold f. by rewrite Hr.
    - apply lookup_ge_None. apply lookup_ge_None in Hi.
      by rewrite <- (Forall2_length _ _ _ HmapM). }
  rewrite ranking_perm.
  replace (zip_with with_score (documents self) (scores_of self q))
    with (f <$> seq 0 (length (store_rows self))); [done|].
  apply list_eq. intros i. rewrite list_lookup_fmap, lookup_zip_with.
  destruct (decide (i < length (store_rows self))) as [Hi|Hi].
  - rewrite lookup_seq_lt by done. simpl. unfold f, entry.
    destruct (lookup_lt_is_Some_2 (documents self) i) as [d ->]; [lia|].
    destruct (lookup_lt_is_Some_2 (scores_of self q) i) as [s ->].
    { rewrite length_scores_of. lia. }
    done.
  - rewrite lookup_seq_ge by lia. simpl.
    rewrite (lookup_ge_None_2 (documents self)) by lia. done.
Qed.

Lemma search_large_k_returns_every_entry_witness :
  ∃ rs, search tie_index "q" 7 = Ok rs
    ∧ rs ≡ₚ zip_with with_score (documents tie_index) (scores_of tie_index "q").
Proof.
  apply search_large_k_returns_every_entry.
  - repeat constructor.
  - simpl. lia.
  - reflexivity.
  - simpl. lia.
Defined.

(** ** The build cells *)

Lemma fresh_store_rows (m : encoder) docs :
  docs ≠ [] →
  Tensor.rows (build_vectorstore None m docs).1 = (λ d, m (text d)) <$> docs.
Proof.
  destruct docs; [done|]. intros _. simpl. by rewrite <- list_fmap_compose.
Qed.

Lemma fresh_store_ncols (m : encoder) docs D :
  (∀ s, length (m s) = D) → docs ≠ [] →
  Tensor.ncols (build_vectorstore None m docs).1 = D.
Proof. destruct docs; [done|]. intros Hdim _. simpl. apply Hdim. Qed.

Lemma search_store_of_no_text docs (m : encoder) q k :
  search (MkIR docs (Tensor.Array1 []) m) q k
  = Raise (if length (m q) =? 0 then SliceOfScalar else ShapeMismatch).
Proof.
  unfold search, search_topk, Tensor.dot_score. simpl.
  destruct (m q) as [|x a]; simpl; done.
Qed.

(** X6. An index built without a cache file from at least one document has
    one row per document, row [i] being the encoding of the text of
    document [i]; when the encoder has a fixed output dimension, [search]
    on it raises neither the shape nor the index error, and returns unless
    there is exactly one document. *)
Theorem fresh_index_is_aligned (m : encoder) docs D q k :
  (∀ s, length (m s) = D) →
  docs ≠ [] →
  length (store_rows (build_index None m docs))
  = length (documents (build_index None m docs))
  ∧ (∀ i d, docs !! i = Some d →
       store_rows (build_index None m docs) !! i = Some (m (text d)))
  ∧ search (build_index None m docs) q k ≠ Raise ShapeMismatch
  ∧ search (build_index None m docs) q k ≠ Raise IndexOutOfRange
  ∧ (length docs ≠ 1 → ∃ rs, search (build_index None m docs) q k = Ok rs).
Proof.
  intros Hdim Hdocs.
  set (index := build_index None m docs).
  assert (store_rows index = (λ d, m (text d)) <$> docs) as Hrows
    by by apply fresh_store_rows.
  assert (length (store_rows index) = length docs) as Hlen
    by by rewrite Hrows, length_fmap.
  assert (well_shaped index q) as Hs.
  { split.
    - change (Tensor.ncols (build_vectorstore None m docs).1
              = length (m q)).
      by rewrite (fresh_store_ncols m docs D), Hdim.
    - rewrite Hrows. apply Forall_fmap, Forall_true.
      intros d. simpl. by rewrite !Hdim. }
  split_and!.
  - done.
  - intros i d Hd. by rewrite Hrows, list_lookup_fmap, Hd.
  - intros Hraise.
    destruct (decide (length (store_rows index) = 1)) as [H1|H1].
    + by rewrite (search_one_row index q k Hs H1) in Hraise.
    + by apply search_raises_only_index_error in Hraise.
  - intros Hraise.
    destruct (decide (length (store_rows index) = 1)) as [H1|H1].
    + by rewrite (search_one_row index q k Hs H1) in Hraise.
    + apply (search_out_of_range index q k Hs H1) in Hraise
        as (i & Hi%elem_of_slice_list%elem_of_ranking & Hge).
      simpl in Hge. lia.
  - intros H1. destruct (search_returns index q k) as (rs & ? & _);
      [done|lia|simpl in *; lia|eauto].
Qed.

Lemma fresh_index_is_aligned_witness :
  ∃ rs, search (build_index None ones [sample_doc "a"; sample_doc "b"]) "q" 1
        = Ok rs.
Proof.
  apply (fresh_index_is_aligned ones [sample_doc "a"; sample_doc "b"] 2 "q" 1).
  - done.
  - done.
  - simpl. lia.
Defined.

(** X7. Once the store has been saved, documents added later stay out of
    reach: the rebuilt index takes the saved rows whatever the documents and
    the encoder are, and [search] on it answers as on the index of the
    documents the rows were computed from. *)
Theorem saved_store_hides_later_documents (m m' : encoder) docs extra q k :
  let saved := (build_vectorstore None m docs).2 in
  saved = Some ((build_vectorstore None m docs).1)
  ∧ build_vectorstore saved m' (docs ++ extra)
    = ((build_vectorstore None m docs).1, saved)
  ∧ search (build_index saved m (docs ++ extra)) q k
    = search (build_index None m docs) q k.
Proof.
  simpl. split_and!; [done..|].
  unfold build_index. simpl.
  destruct docs as [|d docs].
  - simpl. by rewrite !search_store_of_no_text.
  - rewrite search_documents_take.
    change (Tensor.rows _) with (m <$> (text <$> d :: docs)).
    by rewrite !length_fmap, take_app_length.
Qed.

(** ** The ingestion loops *)

Lemma foldl_append {A B} (f : A → B) (init : list B) (l : list A) :
  foldl (λ acc a, acc ++ [f a]) init l = init ++ (f <$> l).
Proof.
  revert init. induction l as [|a l IH]; intros init; simpl.
  - by rewrite app_nil_r.
  - by rewrite IH, <- app_assoc.
Qed.

Lemma raw_documents_of_fmap claims :
  raw_documents_of claims
  = (λ claim, Document (row_article claim)
       (Metadata (row_claimReviewed claim) (row_url claim))) <$> claims.
Proof. unfold raw_documents_of. by rewrite foldl_append. Qed.

Lemma documents_of_bind split raws (init : list document) :
  foldl (λ documents document,
    foldl (λ documents chunk,
      documents ++ [Document chunk (doc_metadata document)])
      documents (split (text document))) init raws
  = init ++ (raws ≫= λ raw,
      (λ chunk, Document chunk (doc_metadata raw)) <$> split (text raw)).
Proof.
  revert init. induction raws as [|raw raws IH]; intros init.
  - simpl. by rewrite app_nil_r.
  - simpl foldl. rewrite IH, foldl_append, bind_cons, app_assoc. done.
Qed.

Lemma documents_of_claims_bind split claims :
  documents_of split (raw_documents_of claims)
  = claims ≫= λ claim,
      (λ chunk, Document chunk
         (Metadata (row_claimReviewed claim) (row_url claim)))
      <$> split (row_article claim).
Proof.
  unfold documents_of.
  rewrite (documents_of_bind split (raw_documents_of claims) []).
  rewrite raw_documents_of_fmap. simpl.
  induction claims as [|c cs IH]; [done|].
  rewrite fmap_cons, !bind_cons, IH. done.
Qed.

Lemma elem_of_documents_of_claims split claims d :
  d ∈ documents_of split (raw_documents_of claims) ↔
  ∃ claim, claim ∈ claims
    ∧ text d ∈ split (row_article claim)
    ∧ doc_metadata d = Metadata (row_claimReviewed claim) (row_url claim).
Proof.
  rewrite documents_of_claims_bind, list_elem_of_bind. split.
  - intros (claim & Hd & Hclaim).
    apply list_elem_of_fmap in Hd as (chunk & -> & Hchunk).
    exists claim. by split_and!.
  - intros (claim & Hclaim & Htext & Hmeta). exists claim. split; [|done].
    apply list_elem_of_fmap. exists (text d). split; [|done].
    destruct d as [t md]. simpl in *. by rewrite Hmeta.
Qed.

(** X8. The chunk records: a record is in [documents] exactly when its
    text is a chunk of the article of some row and its metadata are that
    row's claim and URL; there are as many records as chunks, and the
    records of a row follow those of the rows before it. *)
Theorem documents_are_the_chunks_of_the_rows split claims :
  (∀ d, d ∈ documents_of split (raw_documents_of claims) ↔
     ∃ claim, claim ∈ claims
       ∧ text d ∈ split (row_article claim)
       ∧ doc_metadata d
         = Metadata (row_claimReviewed claim) (row_url claim))
  ∧ length (documents_of split (raw_documents_of claims))
    = sum_list ((λ claim, length (split (row_article claim))) <$> claims)
  ∧ (∀ claims1 claims2, claims = claims1 ++ claims2 →
       documents_of split (raw_documents_of claims)
       = documents_of split (raw_documents_of claims1)
         ++ documents_of split (raw_documents_of claims2)).
Proof.
  split_and!.
  - intros d. apply elem_of_documents_of_claims.
  - rewrite documents_of_claims_bind.
    induction claims as [|c cs IH]; [done|].
    rewrite bind_cons, length_app, length_fmap, IH. done.
  - intros claims1 claims2 ->. rewrite !documents_of_claims_bind.
    apply bind_app.
Qed.

Lemma documents_are_the_chunks_of_the_rows_witness :
  documents_of (λ t, [t; t])
    (raw_documents_of ([ClaimRow "x" "c1" "u1"] ++ [ClaimRow "y" "c2" "u2"]))
  = documents_of (λ t, [t; t]) (raw_documents_of [ClaimRow "x" "c1" "u1"])
    ++ documents_of (λ t, [t; t]) (raw_documents_of [ClaimRow "y" "c2" "u2"]).
Proof.
  apply (proj2 (proj2 (documents_are_the_chunks_of_the_rows (λ t, [t; t])
    ([ClaimRow "x" "c1" "u1"] ++ [ClaimRow "y" "c2" "u2"])))).
  reflexivity.
Defined.

(** ** The generators *)

Lemma string_append_empty_r (s : string) : s +:+ "" = s.
Proof.
  induction s as [|c s IH]; [done|].
  change (String c (s +:+ "") = String c s). by rewrite IH.
Qed.

Lemma join_empty_cons t ts : join "" (t :: ts) = t +:+ join "" ts.
Proof.
  unfold join. destruct ts as [|t' ts]; simpl.
  - by rewrite string_append_empty_r.
  - done.
Qed.

Lemma chatgpt_tokens_cons chunk stream content cs :
  choices chunk = content :: cs →
  chatgpt_tokens (chunk :: stream)
  = (default "" content :: (chatgpt_tokens stream).1,
     (chatgpt_tokens stream).2).
Proof.
  intros Hc. cbn [chatgpt_tokens]. rewrite Hc.
  change ((content :: cs) !! 0) with (Some content).
  by destruct (chatgpt_tokens stream), content.
Qed.

Lemma first_content_cons chunk content cs :
  choices chunk = content :: cs → first_content chunk = content.
Proof. unfold first_content. intros ->. by destruct content. Qed.

Lemma chatgpt_tokens_all_chosen stream :
  Forall (λ chunk, choices chunk ≠ []) stream →
  (chatgpt_tokens stream).2 = None
  ∧ join "" (chatgpt_tokens stream).1 = join "" (omap first_content stream).
Proof.
  induction 1 as [|chunk stream Hchunk _ [IH2 IH1]]; [done|].
  destruct (choices chunk) as [|content cs] eqn:Hc; [done|].
  rewrite (chatgpt_tokens_cons _ _ _ _ Hc).
  change (omap first_content (chunk :: stream))
    with (match first_content chunk with
          | Some c => c :: omap first_content stream
          | None => omap first_content stream
          end).
  rewrite (first_content_cons _ _ _ Hc).
  split; [done|]. cbn [fst]. rewrite join_empty_cons, IH1.
  destruct content as [c|]; [by rewrite join_empty_cons|done].
Qed.

(** X9. [completion] over the stream of the OpenAI client: when every chunk
    has a choice, the text is the contents of the first choices put together,
    a [None] content adding nothing; a chunk without choices makes it raise
    the index error, the generator having yielded the tokens of the chunks
    before it. *)
Theorem chatgpt_completion stream :
  (Forall (λ chunk, choices chunk ≠ []) stream →
     completion_of (chatgpt_tokens stream)
     = Ok (join "" (omap first_content stream)))
  ∧ (∀ chunks chunk rest,
       stream = chunks ++ chunk :: rest →
       Forall (λ c, choices c ≠ []) chunks →
       choices chunk = [] →
       completion_of (chatgpt_tokens stream) = Raise IndexOutOfRange
       ∧ (chatgpt_tokens stream).1 = (chatgpt_tokens chunks).1).
Proof.
  split.
  - intros [Hnone Hjoin]%chatgpt_tokens_all_chosen.
    unfold completion_of. by rewrite Hnone, Hjoin.
  - intros chunks chunk rest -> Hchosen Hchunk.
    induction Hchosen as [|c chunks Hc _ IH].
    + unfold completion_of. cbn. by rewrite Hchunk.
    + destruct (choices c) as [|content cs] eqn:Hcs; [done|].
      rewrite <- app_comm_cons, !(chatgpt_tokens_cons _ _ _ _ Hcs).
      destruct IH as [IHraise IHtokens]. unfold completion_of in *.
      cbn [fst snd] in *. rewrite IHtokens.
      destruct ((chatgpt_tokens (chunks ++ chunk :: rest)).2); [|done].
      done.
Qed.

Lemma chatgpt_completion_witness :
  completion_of (chatgpt_tokens
    [ChatChunk [Some "Hel"]; ChatChunk [None]; ChatChunk [Some "lo"; Some "x"]])
  = Ok "Hello"
  ∧ completion_of (chatgpt_tokens
      ([ChatChunk [Some "Hel"]] ++ ChatChunk [] :: [ChatChunk [Some "lo"]]))
    = Raise IndexOutOfRange.
Proof.
  split.
  - refine (proj1 (chatgpt_completion
      [ChatChunk [Some "Hel"]; ChatChunk [None];
       ChatChunk [Some "lo"; Some "x"]]) _).
    repeat constructor; done.
  - refine (proj1 (proj2 (chatgpt_completion _)
      [ChatChunk [Some "Hel"]] (ChatChunk []) [ChatChunk [Some "lo"]]
      eq_refl _ eq_refl)).
    repeat constructor; done.
Defined.

(** X10. [ChatGPT.__init__] keeps a seed only when it is an integer other
    than zero: with [seed=0] the parameters are those of no seed.  The key
    [max_tokens] is always there, [None] included, and [logit_bias] is a
    dict also when none was given. *)
Theorem chatgpt_params_seed model temperature max_tokens top_p
    frequency_penalty presence_penalty n logit_bias seed :
  let params := chatgpt_params model temperature max_tokens top_p
                  frequency_penalty presence_penalty n logit_bias in
  (params seed !! "seed" = None ↔ seed = None ∨ seed = Some 0%Z)
  ∧ (∀ s, s ≠ 0%Z → params (Some s) !! "seed" = Some (PInt s))
  ∧ params (Some 0%Z) = params None
  ∧ params seed !! "max_tokens" = Some (optional_int max_tokens)
  ∧ params seed !! "logit_bias" = Some (PDict (default ∅ logit_bias)).
Proof.
  intros params. subst params. unfold chatgpt_params.
  assert (∀ d : option (gmap string Q),
    match d with
    | Some d => if decide (d = ∅) then ∅ else d
    | None => ∅
    end = default ∅ d) as Hbias.
  { intros [d|]; simpl; [|done]. by destruct (decide (d = ∅)) as [->|]. }
  rewrite Hbias. split_and!.
  - destruct seed as [s|]; [destruct (decide (s = 0%Z)) as [->|Hs]|].
    + split; [by right|done].
    + rewrite lookup_insert_eq. split; [done|].
      intros [?|[= ?]]; done.
    + split; [by left|done].
  - intros s Hs. rewrite decide_False by done. by rewrite lookup_insert_eq.
  - done.
  - destruct seed as [s|]; [destruct (decide (s = 0%Z))|]; done.
  - destruct seed as [s|]; [destruct (decide (s = 0%Z))|]; done.
Qed.

Lemma chatgpt_params_seed_witness :
  chatgpt_params "gpt-3.5-turbo-0125" 0 None 1 0 0 1 None (Some 7%Z) !! "seed"
  = Some (PInt 7).
Proof.
  apply (chatgpt_params_seed "gpt-3.5-turbo-0125" 0 None 1 0 0 1 None None).
  lia.
Defined.

(** ** The chat object *)

Lemma call_unfold self question use_history :
  call self question use_history
  = match search_default (ir self) (call_query self question use_history) with
    | Raise e => (Raise e, self)
    | Ok documents =>
        let query := call_query self question use_history in
        let prompt :=
          question_template (join document_separator (res_text <$> documents))
            query in
        let answer := llm self (Messages [("system", prompt)]) in
        (Ok (join nl (answer :: citation documents)),
         if use_history
         then {| ir := ir self; llm := llm self;
                 history := history self ++ [join nl [prompt; answer]] |}
         else self)
    end.
Proof. done. Qed.

(** X11. What [__call__] does to the chat object, for a generator that
    answers: the index and the generator stay; without [history] nothing
    changes; when [search] raises, the call raises the same exception and
    nothing changes; with [history] and an answer, one entry is added after
    those that were there. *)
Theorem call_changes_only_the_history self question use_history :
  ir (call self question use_history).2 = ir self
  ∧ llm (call self question use_history).2 = llm self
  ∧ (use_history = false → (call self question use_history).2 = self)
  ∧ (∀ e, search_default (ir self) (call_query self question use_history)
          = Raise e →
       (call self question use_history).1 = Raise e
       ∧ (call self question use_history).2 = self)
  ∧ (use_history = true → ∀ reply,
       (call self question use_history).1 = Ok reply →
       ∃ turn, history (call self question use_history).2
               = history self ++ [turn]).
Proof.
  rewrite call_unfold.
  destruct (search_default _ _) as [e|documents]; cbn [fst snd].
  - split_and!; [done..| |done]. by intros e' [= <-].
  - split_and!.
    + by destruct use_history.
    + by destruct use_history.
    + by intros ->.
    + done.
    + intros -> reply _. eauto.
Qed.

Lemma call_changes_only_the_history_witness :
  (call sample_chat "q" false).2 = sample_chat
  ∧ ∃ turn, history (call sample_chat "q" true).2
            = history sample_chat ++ [turn].
Proof.
  split.
  - apply (call_changes_only_the_history sample_chat "q" false). reflexivity.
  - eapply (call_changes_only_the_history sample_chat "q" true); reflexivity.
Defined.

(** X12. The first turn is answered as a question on its own: with an empty
    history, and so after [reset], [__call__] searches with the question
    itself and returns the same text with and without [history]. *)
Theorem first_turn_needs_no_history self question :
  (history self = [] →
     call_query self question true = question
     ∧ (call self question true).1 = (call self question false).1)
  ∧ (call (reset self) question true).1
    = (call (reset self) question false).1.
Proof.
  assert (∀ chat, history chat = [] →
            call_query chat question true = question
            ∧ (call chat question true).1 = (call chat question false).1)
    as Hfirst.
  { intros chat Hempty.
    assert (call_query chat question true = question) as Hq.
    { unfold call_query. by rewrite Hempty. }
    split; [done|]. rewrite !call_unfold, Hq.
    change (call_query chat question false) with question.
    by destruct (search_default (ir chat) question). }
  split; [apply Hfirst|]. by apply Hfirst.
Qed.

Lemma first_turn_needs_no_history_witness :
  call_query sample_chat "q" true = "q"
  ∧ (call sample_chat "q" true).1 = (call sample_chat "q" false).1.
Proof.
  apply (proj1 (first_turn_needs_no_history sample_chat "q")). reflexivity.
Defined.

Lemma length_cited_urls documents :
  length (cited_urls documents) ≤ length documents.
Proof.
  unfold cited_urls.
  destruct (dict_fromkeys_invariant
    ((λ document, url (res_metadata document)) <$> documents))
    as (Hnd & Hmem & _).
  rewrite <- (length_fmap (λ document, url (res_metadata document)) documents).
  apply submseteq_length, NoDup_submseteq; [done|].
  intros u. apply Hmem.
Qed.

Lemma length_search_default self query documents :
  search_default self query = Ok documents → length documents ≤ 4.
Proof.
  unfold search_default. intros ->%search_length.
  rewrite length_slice_list_pos by lia. lia.
Qed.

(** X13. A reply is the answer followed by at most four citation lines,
    never more than there are retrieved chunks, numbered from 1 in
    steps of 1. *)
Theorem call_cites_at_most_four self question use_history reply :
  (call self question use_history).1 = Ok reply →
  ∃ answer documents,
    search_default (ir self) (call_query self question use_history)
    = Ok documents
    ∧ reply = join nl (answer :: citation documents)
    ∧ length (citation documents) ≤ length documents
    ∧ length documents ≤ 4
    ∧ ∀ i line, citation documents !! i = Some line →
        ∃ u, cited_urls documents !! i = Some u
             ∧ line = pretty (i + 1) +:+ ". " +:+ u.
Proof.
  rewrite call_unfold.
  destruct (search_default _ _) as [e|documents] eqn:Hsearch; [done|].
  cbn [fst]. intros [= <-]. eexists _, documents. split_and!; [done..| | |].
  - unfold citation. rewrite length_imap. apply length_cited_urls.
  - by eapply length_search_default.
  - intros i line. unfold citation. rewrite list_lookup_imap.
    destruct (cited_urls documents !! i) as [u|]; [|done].
    intros [= <-]. by exists u.
Qed.

Lemma call_cites_at_most_four_witness :
  ∃ answer documents,
    search_default (ir sample_chat) (call_query sample_chat "q" false)
    = Ok documents
    ∧ join nl ["an answer"; "1. https://one"; "2. https://two"]
      = join nl (answer :: citation documents)
    ∧ length (citation documents) ≤ length documents
    ∧ length documents ≤ 4
    ∧ ∀ i line, citation documents !! i = Some line →
        ∃ u, cited_urls documents !! i = Some u
             ∧ line = pretty (i + 1) +:+ ". " +:+ u.
Proof.
  apply (call_cites_at_most_four sample_chat "q" false). reflexivity.
Defined.

(** ** The demo *)

Lemma respond_keeps_chat chat question chat_history :
  (respond chat question chat_history).2 = chat.
Proof.
  unfold respond. rewrite call_unfold.
  by destruct (search_default _ _).
Qed.

(** X14. The page never uses the conversation: whatever was asked before,
    the chat object is unchanged after a session, so its history stays as it
    was, and the history of the page gains, for each question that is
    answered, the pair of the question and the reply the unchanged chat
    gives to it alone. *)
Theorem demo_session_is_stateless chat chat_history questions :
  (demo_session chat chat_history questions).2 = chat
  ∧ (demo_session chat chat_history questions).1
    = chat_history ++ omap (demo_turn chat) questions.
Proof.
  revert chat_history.
  induction questions as [|question questions IH]; intros chat_history.
  { simpl. by rewrite app_nil_r. }
  cbn [demo_session].
  pose proof (respond_keeps_chat chat question chat_history) as Hkeep.
  change (omap (demo_turn chat) (question :: questions))
    with (match demo_turn chat question with
          | Some turn => turn :: omap (demo_turn chat) questions
          | None => omap (demo_turn chat) questions
          end).
  unfold demo_turn at 1 2. unfold respond in *.
  destruct (call chat question false) as [[e|bot_message] chat'];
    cbn [fst snd] in *; subst chat'.
  - apply IH.
  - destruct (IH (chat_history ++ [(question, bot_message)])) as [-> ->].
    by rewrite <- app_assoc.
Qed.

(** ** From the table to the results *)

(** X15. What comes back from an index built from the table without a
    cache file: every result is a chunk of the article of a row of the
    table, carries that row's claim and URL, and is scored by the dot
    product of the encodings of the query and of its own text. *)
Theorem results_come_from_the_table split claims (m : encoder) q k rs r :
  search (build_index None m (documents_of split (raw_documents_of claims)))
    q k = Ok rs →
  r ∈ rs →
  ∃ claim, claim ∈ claims
    ∧ res_text r ∈ split (row_article claim)
    ∧ res_metadata r = Metadata (row_claimReviewed claim) (row_url claim)
    ∧ score r = Tensor.dot (m q) (m (res_text r)).
Proof.
  intros (_ & _ & HF)%search_Ok [a Ha]%list_elem_of_lookup_1.
  destruct (Forall2_lookup_r _ _ _ _ _ HF Ha) as (i & _ & Hentry).
  apply entry_Some in Hentry as (d & v & Hd & Hv & ->).
  unfold store_rows, build_index in Hd, Hv.
  cbn [documents vectorstore] in Hd, Hv.
  rewrite fresh_store_rows, list_lookup_fmap, Hd in Hv
    by (intros Hnil; by rewrite Hnil in Hd).
  injection Hv as <-.
  apply list_elem_of_lookup_2, elem_of_documents_of_claims in Hd
    as (claim & Hclaim & Htext & Hmeta).
  exists claim. by split_and!.
Qed.

Lemma results_come_from_the_table_witness :
  ∃ claim, claim ∈ [ClaimRow "x" "c1" "u1"; ClaimRow "y" "c2" "u2"]
    ∧ res_text (with_score (Document "x" (Metadata "c1" "u1")) 2)
      ∈ (λ t : string, [t]) (row_article claim)
    ∧ res_metadata (with_score (Document "x" (Metadata "c1" "u1")) 2)
      = Metadata (row_claimReviewed claim) (row_url claim)
    ∧ score (with_score (Document "x" (Metadata "c1" "u1")) 2)
      = Tensor.dot (ones "q")
          (ones (res_text (with_score (Document "x" (Metadata "c1" "u1")) 2))).
Proof.
  apply (results_come_from_the_table (λ t, [t])
    [ClaimRow "x" "c1" "u1"; ClaimRow "y" "c2" "u2"] ones "q" 1
    [with_score (Document "x" (Metadata "c1" "u1")) 2]).
  - reflexivity.
  - left.
Defined.
